(** * MemoryManager: a word-granularity allocator over a fixed arena

    Shallow embedding of [src/MemoryManager.h] and [src/MemoryManager.cpp].

    Data layout assumed throughout (LP64, two's complement):
    - [unsigned int] is 32 bits, [int] is 32 bits, [size_t] is 64 bits,
      [uint16_t] is 16 bits; every conversion and every unsigned operation
      is written with its wrap-around ([u16], [u32], [u64], [s32]);
    - a pointer is its numeric value, [nullptr] is 0 and [MAP_FAILED] is
      [(void* )-1];
    - [std::list<Hole>] and [std::list<Block>] are Rocq lists, an iterator
      loop is a structural recursion over the list;
    - the [uint16_t] array built by [getList] is a [list Z];
    - the operating system ([mmap], [open], [write], [close]) is an explicit
      environment passed to the operation that calls it. *)

From Stdlib Require Import ZArith List Bool Lia String Ascii DecimalString.
From Stdlib Require Import Sorted.
Import ListNotations.
Local Open Scope Z_scope.

(* ================================================================= *)
(** ** Machine integers *)

Definition u16 (x : Z) : Z := x mod 2 ^ 16.
Definition u32 (x : Z) : Z := x mod 2 ^ 32.
Definition u64 (x : Z) : Z := x mod 2 ^ 64.

(** Conversion of an [unsigned int] to [int]. *)
Definition s32 (x : Z) : Z :=
  let y := u32 x in if y <? 2 ^ 31 then y else y - 2 ^ 32.

Definition nullptr : Z := 0.
Definition MAP_FAILED : Z := 2 ^ 64 - 1.
Definition MAX_NUM_WORDS : Z := 65535.

(* ================================================================= *)
(** ** The ledgers' records *)

Module Hole.
Record t : Set := mk { offset : Z; length : Z }.
End Hole.

Module Block.
Record t : Set := mk { offset : Z; length : Z }.
End Block.

(** A placement strategy, [std::function<int(int, void* )>]: the requested
    word count and the array of [getList]. *)
Definition strategy : Type := Z -> list Z -> Z.

Record MemoryManager : Type := mkMemoryManager {
  wordSize : Z;
  memoryStart : Z;
  memoryLimit : Z;
  allocator : strategy;
  holeList : list Hole.t;
  allocatedList : list Block.t
}.

(** The constructor's member initialisers. *)
Definition construct (wordSize : Z) (allocator : strategy) : MemoryManager :=
  mkMemoryManager wordSize nullptr 0 allocator [] [].

(** What [initialize] does to its caller: it returns, or it throws
    [std::invalid_argument] (the spec's InvalidSize) or [std::runtime_error]
    (the spec's OutOfMemory). *)
Inductive outcome : Set :=
| returned
| invalid_argument
| runtime_error.

(* ================================================================= *)
(** ** Arena lifecycle *)

Definition shutdown (m : MemoryManager) : MemoryManager :=
  let mapped := negb (memoryStart m =? nullptr) in
  mkMemoryManager (wordSize m)
                  (if mapped then nullptr else memoryStart m)
                  (if mapped then 0 else memoryLimit m)
                  (allocator m) [] [].

Definition setAllocator (a : strategy) (m : MemoryManager) : MemoryManager :=
  mkMemoryManager (wordSize m) (memoryStart m) (memoryLimit m) a
                  (holeList m) (allocatedList m).

(** [mmap] is the answer of the operating system to
    [mmap(nullptr, length, ...)], as a function of the length. *)
Definition initialize (mmap : Z -> Z) (sizeInWords : Z) (m : MemoryManager)
  : MemoryManager * outcome :=
  let m1 := if memoryStart m =? nullptr then m else shutdown m in
  if sizeInWords >? MAX_NUM_WORDS then (m1, invalid_argument)
  else
    let limit := u64 (sizeInWords * wordSize m1) in
    let start := mmap limit in
    if start =? MAP_FAILED then
      (mkMemoryManager (wordSize m1) nullptr 0 (allocator m1)
                       (holeList m1) (allocatedList m1), runtime_error)
    else
      (mkMemoryManager (wordSize m1) start limit (allocator m1)
                       [Hole.mk 0 (u32 sizeInWords)] [], returned).

(** POSIX: [mmap] fails when the length is 0. *)
Definition posix_mmap (base : Z) : Z -> Z :=
  fun len => if len =? 0 then MAP_FAILED else base.

(* ================================================================= *)
(** ** Snapshot of the Hole Ledger *)

Definition encodeHole (h : Hole.t) : list Z :=
  [u16 (Hole.offset h); u16 (Hole.length h)].

Definition encodeHoles (holes : list Hole.t) : list Z :=
  u16 (Z.of_nat (List.length holes)) :: flat_map encodeHole holes.

Definition getList (m : MemoryManager) : option (list Z) :=
  match holeList m with
  | [] => None
  | _ :: _ => Some (encodeHoles (holeList m))
  end.

(* ================================================================= *)
(** ** Allocation *)

(** The ordered insertion into [allocatedList]. *)
Fixpoint insertBlock (block : Block.t) (l : list Block.t) : list Block.t :=
  match l with
  | [] => [block]
  | x :: rest =>
      if Block.offset x <? Block.offset block
      then x :: insertBlock block rest
      else block :: l
  end.

(** The loop over [holeList] in [allocate]: the first hole whose offset is
    [wordOffset] gives its low end; [None] when the loop finds none. *)
Fixpoint takeFromHole (wordOffset sizeInWords : Z) (holes : list Hole.t)
  : option (list Hole.t) :=
  match holes with
  | [] => None
  | h :: rest =>
      if Hole.offset h =? wordOffset then
        Some (if Hole.length h =? sizeInWords then rest
              else Hole.mk (u32 (Hole.offset h + sizeInWords))
                           (u32 (Hole.length h - sizeInWords)) :: rest)
      else option_map (cons h) (takeFromHole wordOffset sizeInWords rest)
  end.

(** The word count [allocate] computes from [sizeInBytes]. *)
Definition wordsFor (m : MemoryManager) (sizeInBytes : Z) : Z :=
  u32 (u64 (sizeInBytes + wordSize m - 1) / wordSize m).

(** [allocate] returns the address and the manager after the call. *)
Definition allocate (sizeInBytes : Z) (m : MemoryManager)
  : Z * MemoryManager :=
  if (memoryStart m =? nullptr) || (sizeInBytes =? 0) then (nullptr, m)
  else
    let sizeInWords := wordsFor m sizeInBytes in
    match getList m with
    | None => (nullptr, m)
    | Some list =>
        let wordOffset := allocator m (s32 sizeInWords) list in
        if wordOffset =? -1 then (nullptr, m)
        else
          match takeFromHole (u32 wordOffset) sizeInWords (holeList m) with
          | None => (nullptr, m)
          | Some holes' =>
              (memoryStart m + u32 (u32 wordOffset * wordSize m),
               mkMemoryManager (wordSize m) (memoryStart m) (memoryLimit m)
                 (allocator m) holes'
                 (insertBlock (Block.mk (u32 wordOffset) sizeInWords)
                              (allocatedList m)))
          end
    end.

(* ================================================================= *)
(** ** Deallocation and coalescing *)

(** The ordered insertion into [holeList]. *)
Fixpoint insertHole (hole : Hole.t) (l : list Hole.t) : list Hole.t :=
  match l with
  | [] => [hole]
  | x :: rest =>
      if Hole.offset x <? Hole.offset hole
      then x :: insertHole hole rest
      else hole :: l
  end.

(** The loop over [allocatedList] in [free]: the first block at
    [wordOffset] is erased and its length is returned. *)
Fixpoint removeBlock (wordOffset : Z) (l : list Block.t)
  : option (Z * list Block.t) :=
  match l with
  | [] => None
  | b :: rest =>
      if Block.offset b =? wordOffset then Some (Block.length b, rest)
      else
        match removeBlock wordOffset rest with
        | Some (len, rest') => Some (len, b :: rest')
        | None => None
        end
  end.

(** [mergeHoles], with [it] held in [cur] and the rest of the list behind
    it: a merge keeps [it] in place, otherwise [it] moves on. *)
Fixpoint mergeFrom (cur : Hole.t) (rest : list Hole.t) : list Hole.t :=
  match rest with
  | [] => [cur]
  | next :: rest' =>
      if u32 (Hole.offset cur + Hole.length cur) =? Hole.offset next
      then mergeFrom (Hole.mk (Hole.offset cur)
                              (u32 (Hole.length cur + Hole.length next))) rest'
      else cur :: mergeFrom next rest'
  end.

Definition mergeHoles (holes : list Hole.t) : list Hole.t :=
  match holes with
  | [] => []
  | h :: rest => mergeFrom h rest
  end.

(** The word offset [free] computes from an address. *)
Definition wordOffsetOf (m : MemoryManager) (address : Z) : Z :=
  u32 (u64 (address - memoryStart m) / wordSize m).

Definition free (address : Z) (m : MemoryManager) : MemoryManager :=
  if (memoryStart m =? nullptr) || (address =? nullptr) then m
  else
    let wordOffset := wordOffsetOf m address in
    match removeBlock wordOffset (allocatedList m) with
    | None => m
    | Some (allocatedLength, blocks') =>
        let holes' := insertHole (Hole.mk wordOffset allocatedLength)
                                 (holeList m) in
        mkMemoryManager (wordSize m) (memoryStart m) (memoryLimit m)
          (allocator m)
          (if allocatedLength =? 0 then holes' else mergeHoles holes')
          blocks'
    end.

(* ================================================================= *)
(** ** Placement strategies *)

(** One turn of the loop shared by the two strategies; [better] is the
    comparison with the best length so far. *)
Definition fitStep (better : Z -> Z -> bool) (sizeInWords : Z)
  (holeList : list Z) (best : Z * Z) (i : nat) : Z * Z :=
  let offset := nth (1 + i * 2) holeList 0 in
  let length := nth (2 + i * 2) holeList 0 in
  if (length >=? sizeInWords) && better length (snd best)
  then (offset, length) else best.

Definition fitLoop (better : Z -> Z -> bool) (sizeInWords : Z)
  (holeList : list Z) (init : Z * Z) : Z :=
  let holeCount := nth 0 holeList 0 in
  fst (fold_left (fitStep better sizeInWords holeList)
                 (seq 0 (Z.to_nat holeCount)) init).

Definition bestFit : strategy :=
  fun sizeInWords list =>
    fitLoop Z.ltb sizeInWords list (-1, MAX_NUM_WORDS + 1).

Definition worstFit : strategy :=
  fun sizeInWords list =>
    fitLoop Z.gtb sizeInWords list (-1, -1).

(* ================================================================= *)
(** ** Dump of the Hole Ledger *)

(** [std::to_string] of an [unsigned int]. *)
Definition to_string (n : Z) : string :=
  NilZero.string_of_uint (N.to_uint (Z.to_N n)).

(** The file system as [dumpMemoryMap] sees it: the descriptor [open]
    returns for a path, the value the [k]-th call of [write] returns for
    its data, and the value [close] returns. *)
Record FileSystem : Type := mkFileSystem {
  fs_open : string -> Z;
  fs_write : nat -> string -> Z;
  fs_close : Z
}.

(** The bytes a [write] that returned [nb] has put into the file. *)
Definition written (data : string) (nb : Z) : string :=
  substring 0 (Z.to_nat nb) data.

Definition holeEntry (h : Hole.t) : string :=
  ("[" ++ to_string (Hole.offset h) ++ ", "
       ++ to_string (Hole.length h) ++ "]")%string.

Definition delim : string := " - ".

(** The loop of [dumpMemoryMap]: [k] counts the calls of [write] so far,
    [file] is what the file holds; the boolean is false when the loop left
    through the failed write of an entry. *)
Fixpoint dumpLoop (fs : FileSystem) (k : nat) (file : string)
  (holes : list Hole.t) : bool * string :=
  match holes with
  | [] => (true, file)
  | h :: rest =>
      let msg := holeEntry h in
      let nb := fs_write fs k msg in
      if nb =? -1 then (false, file)
      else
        let file1 := (file ++ written msg nb)%string in
        let '(k2, file2) :=
          match rest with
          | [] => (S k, file1)
          | _ :: _ =>
              (S (S k),
               (file1 ++ written delim (fs_write fs (S k) delim))%string)
          end in
        dumpLoop fs k2 file2 rest
  end.

(** [dumpMemoryMap] returns its status and the state of the file at
    [filename] ([None]: no such file), given the state before the call. *)
Definition dumpMemoryMap (fs : FileSystem) (filename : string)
  (before : option string) (m : MemoryManager) : Z * option string :=
  if fs_open fs filename =? -1 then (-1, before)
  else
    let '(ok, file) := dumpLoop fs 0 EmptyString (holeList m) in
    if negb ok then (-1, Some file)
    else if fs_close fs =? -1 then (-1, Some file)
    else (0, Some file).

(* ================================================================= *)
(** ** What the spec calls things *)

(** An arena is live between [initialize] and [shutdown]. *)
Definition live (m : MemoryManager) : Prop := memoryStart m <> nullptr.

(** Capacity in words, as [getBitmap] recovers it. *)
Definition capacityWords (m : MemoryManager) : Z :=
  memoryLimit m / wordSize m.

(** Word [w] lies in the extent [(offset, length)]. *)
Definition inExtent (w : Z) (e : Z * Z) : bool :=
  (fst e <=? w) && (w <? fst e + snd e).

Definition holeExtent (h : Hole.t) : Z * Z := (Hole.offset h, Hole.length h).
Definition blockExtent (b : Block.t) : Z * Z :=
  (Block.offset b, Block.length b).

(** 1 when word [w] lies in the extent [e], 0 otherwise. *)
Definition covers (w : Z) (e : Z * Z) : nat :=
  if inExtent w e then 1%nat else 0%nat.

(** Number of extents of [es] that contain word [w]. *)
Fixpoint coverCount (w : Z) (es : list (Z * Z)) : nat :=
  match es with
  | [] => 0%nat
  | e :: rest => (covers w e + coverCount w rest)%nat
  end.

Definition extents (m : MemoryManager) : list (Z * Z) :=
  map holeExtent (holeList m) ++ map blockExtent (allocatedList m).

(** The tiling invariant: every word of [[0, capacityWords)] lies in
    exactly one extent of the two ledgers, and no extent reaches outside. *)
Definition tiles (m : MemoryManager) : Prop :=
  forall w, coverCount w (extents m)
            = if (0 <=? w) && (w <? capacityWords m) then 1%nat else 0%nat.

(** The no-adjacency invariant, in the spec's words. *)
Definition noAdjacentHoles (holes : list Hole.t) : Prop :=
  forall h1 h2, In h1 holes -> In h2 holes ->
    Hole.offset h1 < Hole.offset h2 ->
    Hole.offset h1 + Hole.length h1 < Hole.offset h2.

(** A Hole Ledger whose fields and count fit the [uint16_t] snapshot. *)
Definition fitsSnapshot (holes : list Hole.t) : Prop :=
  Z.of_nat (List.length holes) < 2 ^ 16 /\
  Forall (fun h => 0 <= Hole.offset h < 2 ^ 16 /\
                   0 <= Hole.length h < 2 ^ 16) holes.

(** "No hole is large enough." *)
Definition noHoleFits (holes : list Hole.t) (requestedWords : Z) : Prop :=
  forall h, In h holes -> Hole.length h < requestedWords.

(** The [i]-th hole [h] is large enough, no large-enough hole is
    smaller, and it is the first of its length among them. *)
Definition firstSmallestFit (holes : list Hole.t) (requestedWords : Z)
  (i : nat) (h : Hole.t) : Prop :=
  nth_error holes i = Some h /\
  requestedWords <= Hole.length h /\
  forall j h', nth_error holes j = Some h' ->
    requestedWords <= Hole.length h' ->
    Hole.length h <= Hole.length h' /\
    (Hole.length h' = Hole.length h -> (i <= j)%nat).

(** The same with the largest hole. *)
Definition firstLargestFit (holes : list Hole.t) (requestedWords : Z)
  (i : nat) (h : Hole.t) : Prop :=
  nth_error holes i = Some h /\
  requestedWords <= Hole.length h /\
  forall j h', nth_error holes j = Some h' ->
    requestedWords <= Hole.length h' ->
    Hole.length h' <= Hole.length h /\
    (Hole.length h' = Hole.length h -> (i <= j)%nat).

(** One turn of a strategy's loop, on the hole itself rather than on its
    place in the array. *)
Definition pickHole (better : Z -> Z -> bool) (requestedWords : Z)
  (best : Z * Z) (h : Hole.t) : Z * Z :=
  if (u16 (Hole.length h) >=? requestedWords)
     && better (u16 (Hole.length h)) (snd best)
  then (u16 (Hole.offset h), u16 (Hole.length h)) else best.

(** The Hole Ledger of the spec's determinism examples. *)
Definition exampleHoles : list Hole.t :=
  [Hole.mk 0 4; Hole.mk 10 2; Hole.mk 20 8].

(* ================================================================= *)
(** ** States and environments used in the concrete runs *)

(** A 10-word arena of 1-byte words under best fit, mapped at 4096. *)
Definition arena10 : MemoryManager :=
  fst (initialize (posix_mmap 4096) 10 (construct 1 bestFit)).

(** [arena10] with all of its 10 words in one allocation. *)
Definition fullArena : MemoryManager := snd (allocate 10 arena10).

(** [arena10] with one allocation of 4 words at offset 0. *)
Definition arenaWithBlock : MemoryManager := snd (allocate 4 arena10).

(** [arena10] after a request of 2^32 bytes. *)
Definition arenaAfterWrappedRequest : MemoryManager :=
  snd (allocate (2 ^ 32) arena10).

(** A strategy that answers 7 whatever it is given. *)
Definition alwaysSeven : strategy := fun _ _ => 7.

(** A 32-word arena of 8-byte words with one 4-word allocation at
    offset 0. *)
Definition arena32WithBlock : MemoryManager :=
  snd (allocate 32 (fst (initialize (posix_mmap 4096) 32
                                    (construct 8 bestFit)))).

(** A file system where every call succeeds and every write is complete,
    but for the write number [bad], which returns -1. *)
Definition failingWrite (bad : nat) : FileSystem :=
  mkFileSystem (fun _ => 3)
               (fun k data => if Nat.eqb k bad then -1
                              else Z.of_nat (String.length data))
               0.

(** A manager whose Hole Ledger is [(0,4); (10,2)]: a 12-word arena of
    1-byte words after allocations of 4 and 6 words and the release of
    the first. *)
Definition twoHoles : MemoryManager :=
  let m0 := fst (initialize (posix_mmap 4096) 12 (construct 1 bestFit)) in
  let m1 := snd (allocate 4 m0) in
  let m2 := snd (allocate 6 m1) in
  free (fst (allocate 4 m0)) m2.

(* ================================================================= *)
(** ** Statements in the spec's wording *)

(** "The placement strategy reports that no hole is large enough": the
    strategy is handed the snapshot and answers -1. *)
Definition strategyReportsNoFit (m : MemoryManager) (sizeInBytes : Z)
  : Prop :=
  exists list, getList m = Some list /\
    allocator m (s32 (wordsFor m sizeInBytes)) list = -1.

(** The strategy answers an offset at which the Hole Ledger has no hole. *)
Definition strategyMissesLedger (m : MemoryManager) (sizeInBytes : Z)
  : Prop :=
  exists list, getList m = Some list /\
    allocator m (s32 (wordsFor m sizeInBytes)) list <> -1 /\
    forall h, In h (holeList m) ->
      Hole.offset h
        <> u32 (allocator m (s32 (wordsFor m sizeInBytes)) list).

(** "No fit": the Hole Ledger has no hole to hand over, or the strategy
    reports that no hole is large enough. *)
Definition noFitReported (m : MemoryManager) (sizeInBytes : Z) : Prop :=
  holeList m = [] \/ strategyReportsNoFit m sizeInBytes.

(** The three cases in which [allocate] is said to return null. *)
Definition nullCasesAsStated (m : MemoryManager) (sizeInBytes : Z) : Prop :=
  sizeInBytes = 0 \/ memoryStart m = nullptr \/ noFitReported m sizeInBytes.

(** The word quotient of an address, [floor((a - arenaBase) / wordSize)]. *)
Definition wordQuotient (m : MemoryManager) (address : Z) : Z :=
  (address - memoryStart m) / wordSize m.

(** The first allocation at word offset [q], and the ledger without it. *)
Definition blockAt (q : Z) (l : list Block.t) : option Block.t :=
  find (fun b => Block.offset b =? q) l.

Fixpoint withoutBlockAt (q : Z) (l : list Block.t) : list Block.t :=
  match l with
  | [] => []
  | b :: rest =>
      if Block.offset b =? q then rest else b :: withoutBlockAt q rest
  end.

(** The rendering of a Hole Ledger: the entries, [" - "] between them. *)
Fixpoint renderHoles (holes : list Hole.t) : string :=
  match holes with
  | [] => EmptyString
  | [h] => holeEntry h
  | h :: rest => (holeEntry h ++ delim ++ renderHoles rest)%string
  end.


(* ================================================================= *)
(** ** The ledgers' invariants *)

(** The holes of [holes] lie in order between [lo] and [hi], each of
    positive length and each starting at least [gap] words after the end
    of the one before it ([lo] stands for the first one's predecessor).
    With [gap = 1] no two holes touch. *)
Fixpoint holeChain (gap lo hi : Z) (holes : list Hole.t) : Prop :=
  match holes with
  | [] => lo <= hi
  | h :: rest =>
      lo + gap <= Hole.offset h /\ 0 < Hole.length h /\
      holeChain gap (Hole.offset h + Hole.length h) hi rest
  end.

(** A strategy that answers -1 or the offset of a hole of the snapshot
    that is large enough. *)
Definition conforming (s : strategy) : Prop :=
  forall holes requestedWords,
    fitsSnapshot holes ->
    s requestedWords (encodeHoles holes) = -1 \/
    exists h, In h holes /\
      s requestedWords (encodeHoles holes) = Hole.offset h /\
      requestedWords <= Hole.length h.

(** The state of a manager between calls whose requests are in range. *)
Record wellFormed (m : MemoryManager) : Prop := mkWellFormed {
  wf_wordSize : 0 < wordSize m < 2 ^ 32;
  wf_start : 0 <= memoryStart m;
  wf_limit : memoryStart m = nullptr -> memoryLimit m = 0;
  wf_capacity : 0 <= capacityWords m <= MAX_NUM_WORDS;
  wf_blocks : Forall (fun b => 0 < Block.length b) (allocatedList m);
  wf_holes : holeChain 1 (-1) (capacityWords m) (holeList m);
  wf_tiles : tiles m;
  wf_strategy : conforming (allocator m)
}.

(** A request whose word count [allocate] computes without wrap-around
    and passes to the strategy unchanged. *)
Definition requestInRange (m : MemoryManager) (sizeInBytes : Z) : Prop :=
  0 <= sizeInBytes /\
  sizeInBytes + wordSize m - 1 < 2 ^ 64 /\
  (sizeInBytes + wordSize m - 1) / wordSize m < 2 ^ 31.

(** An [mmap] that fails for length 0 and otherwise answers [MAP_FAILED]
    or a pointer that is not null. *)
Definition posixLike (mmap : Z -> Z) : Prop :=
  mmap 0 = MAP_FAILED /\ forall len, 0 < mmap len.

(** The calls of the public interface, with what the environment
    answers. *)
Inductive call : Type :=
| Initialize (mmap : Z -> Z) (sizeInWords : Z)
| Shutdown
| Allocate (sizeInBytes : Z)
| Free (address : Z)
| SetAllocator (s : strategy).

Definition perform (c : call) (m : MemoryManager) : MemoryManager :=
  match c with
  | Initialize mmap sizeInWords => fst (initialize mmap sizeInWords m)
  | Shutdown => shutdown m
  | Allocate sizeInBytes => snd (allocate sizeInBytes m)
  | Free address => free address m
  | SetAllocator s => setAllocator s m
  end.

(** A call whose arguments are of their types and whose request, if any,
    is in range. *)
Definition callInRange (m : MemoryManager) (c : call) : Prop :=
  match c with
  | Initialize mmap sizeInWords => posixLike mmap /\ 0 <= sizeInWords < 2 ^ 64
  | Shutdown => True
  | Allocate sizeInBytes => requestInRange m sizeInBytes
  | Free address => True
  | SetAllocator s => conforming s
  end.

(** The managers reached from a constructed one by calls in range. *)
Inductive reachableInRange : MemoryManager -> Prop :=
| reach_construct wordSize s :
    0 < wordSize < 2 ^ 32 -> conforming s ->
    reachableInRange (construct wordSize s)
| reach_call m c :
    reachableInRange m -> callInRange m c ->
    reachableInRange (perform c m).

(** No write of an entry fails: the entry of hole number [i] goes out in
    the call number [2 * i]. *)
Definition entryWritesSucceed (fs : FileSystem) (holes : list Hole.t)
  : Prop :=
  forall i h, nth_error holes i = Some h ->
    fs_write fs (2 * i) (holeEntry h) <> -1.

(** Every call of [write] writes all of its data. *)
Definition writesComplete (fs : FileSystem) : Prop :=
  forall k data, fs_write fs k data = Z.of_nat (String.length data).

(** The order of the Allocation Ledger: by offset. *)
Definition blockBefore (a b : Block.t) : Prop :=
  Block.offset a <= Block.offset b.

(** The 32-word arena of 8-byte words of the demonstration program. *)
Definition demoArena : MemoryManager :=
  fst (initialize (posix_mmap 4096) 32 (construct 8 bestFit)).

(** A 4-word arena of 2^31-byte words (8 GiB), mapped at 2^40. *)
Definition hugeWordArena : MemoryManager :=
  fst (initialize (posix_mmap (2 ^ 40)) 4 (construct (2 ^ 31) bestFit)).

(* ================================================================= *)
(** ** The getters and the occupancy bitmap *)

Definition u8 (x : Z) : Z := x mod 2 ^ 8.

Definition getWordSize (m : MemoryManager) : Z := wordSize m.

Definition getMemoryStart (m : MemoryManager) : Z := memoryStart m.

(** [memoryLimit] is a [size_t], the result an [unsigned int]. *)
Definition getMemoryLimit (m : MemoryManager) : Z := u32 (memoryLimit m).

(** What an export that fills a fresh array gives back: [nullptr], the
    array, or nothing that C++ defines when the code has written outside
    the array it allocated. *)
Inductive exported : Type :=
| Null
| Array (bytes : list Z)
| WriteOutOfBounds.

(** [bytes[index] = value], [None] when [index] is outside the array. *)
Fixpoint store (index : nat) (value : Z) (bytes : list Z)
  : option (list Z) :=
  match bytes, index with
  | [], _ => None
  | _ :: rest, O => Some (value :: rest)
  | b :: rest, S i => option_map (cons b) (store i value rest)
  end.

(** [bitmap[2 + byteIndex] |= (1 << bitIndex)] for the word [wordIndex]. *)
Definition setBit (bitmap : list Z) (wordIndex : Z) : option (list Z) :=
  let byteIndex := wordIndex / 8 in
  let bitIndex := wordIndex mod 8 in
  match nth_error bitmap (Z.to_nat (2 + byteIndex)) with
  | Some byte =>
      store (Z.to_nat (2 + byteIndex))
            (u8 (Z.lor byte (Z.shiftl 1 bitIndex))) bitmap
  | None => None
  end.

(** The inner loop of [getBitmap], over the words of one block. *)
Definition markBlock (bitmap : option (list Z)) (block : Block.t)
  : option (list Z) :=
  fold_left
    (fun acc l =>
       match acc with
       | Some bm => setBit bm (u32 (Block.offset block + Z.of_nat l))
       | None => None
       end)
    (seq 0 (Z.to_nat (Block.length block))) bitmap.

(** The size in bytes [getBitmap] computes for the bit field. *)
Definition bitmapSizeInBytes (m : MemoryManager) : Z :=
  u32 (u32 (memoryLimit m / wordSize m) + 7) / 8.

Definition getBitmap (m : MemoryManager) : exported :=
  if memoryStart m =? nullptr then Null
  else
    let size := bitmapSizeInBytes m in
    let bitmap :=
      u8 (Z.land size 255) :: u8 (Z.land (Z.shiftr size 8) 255)
      :: repeat 0 (Z.to_nat size) in
    match fold_left markBlock (allocatedList m) (Some bitmap) with
    | Some bytes => Array bytes
    | None => WriteOutOfBounds
    end.

(** Bit [w] of the bit field of an exported bitmap. *)
Definition bitOf (bytes : list Z) (w : Z) : bool :=
  Z.testbit (nth (Z.to_nat (2 + w / 8)) bytes 0) (w mod 8).

(** Word [w] lies in an allocation, in a hole. *)
Definition allocatedWord (m : MemoryManager) (w : Z) : Prop :=
  exists b, In b (allocatedList m) /\
    Block.offset b <= w < Block.offset b + Block.length b.

Definition freeWord (m : MemoryManager) (w : Z) : Prop :=
  exists h, In h (holeList m) /\
    Hole.offset h <= w < Hole.offset h + Hole.length h.

(* ================================================================= *)
(** ** The demonstration program's printer *)

Definition newline : string := String "010" EmptyString.

(** One turn of the loop of [printHoleList]: what it appends to the
    output for hole number [i] of the array [holeList]. *)
Definition printStep (holeList : list Z) (out : string) (i : nat)
  : string :=
  let count := nth 0 holeList 0 in
  let offset := nth (1 + i * 2) holeList 0 in
  let length := nth (2 + i * 2) holeList 0 in
  (out ++ "[" ++ to_string offset ++ ", " ++ to_string length ++ "]"
       ++ (if (Z.of_nat i <? count - 1)%Z then delim else EmptyString))%string.

(** [printHoleList], as the text it sends to the standard output. *)
Definition printHoleList (m : MemoryManager) : string :=
  match getList m with
  | None => ("  Hole list: (empty)" ++ newline)%string
  | Some holeList =>
      let count := nth 0 holeList 0 in
      (fold_left (printStep holeList) (seq 0 (Z.to_nat count))
                 "  Hole list: " ++ newline)%string
  end.

(* ================================================================= *)
(** ** Any sequence of calls *)

(** The managers reached from a constructed one by any calls at all. *)
Inductive reachable : MemoryManager -> Prop :=
| reachable_construct wordSize s : reachable (construct wordSize s)
| reachable_call m c : reachable m -> reachable (perform c m).

(** The snapshot array read back as the strategies and the printer read
    it: the count, then the pair of hole number [i]. *)
Definition snapshotCount (list : list Z) : Z := nth 0 list 0.
Definition snapshotHole (list : list Z) (i : nat) : Hole.t :=
  Hole.mk (nth (1 + i * 2) list 0) (nth (2 + i * 2) list 0).

(** The words of a ledger, summed. *)
Definition holeWords (holes : list Hole.t) : Z :=
  fold_right (fun h acc => Hole.length h + acc) 0 holes.
Definition blockWords (blocks : list Block.t) : Z :=
  fold_right (fun b acc => Block.length b + acc) 0 blocks.

(** The order of the Hole Ledger: by offset, strictly. *)
Definition holeBefore (a b : Hole.t) : Prop :=
  Hole.offset a < Hole.offset b.

(** The words of the two ledgers add up to the capacity. *)
Definition wordsBalance (m : MemoryManager) : Prop :=
  holeWords (holeList m) + blockWords (allocatedList m) = capacityWords m.

(** An extent of positive length inside an arena of [capacity] words. *)
Definition insideArena (capacity : Z) (e : Z * Z) : Prop :=
  0 <= fst e /\ 0 < snd e /\ fst e + snd e <= capacity.

(** A file system where every call succeeds and every write is
    complete. *)
Definition completeFileSystem : FileSystem :=
  mkFileSystem (fun _ => 3) (fun _ data => Z.of_nat (String.length data)) 0.

(** A ledger in offset order whose first two holes touch. *)
Definition touchingHoles : list Hole.t :=
  [Hole.mk 0 2; Hole.mk 2 3; Hole.mk 7 1].

(* ================================================================= *)
(** ** What [free] is said to do *)

(** [free] matches by word quotient: the first allocation whose offset is
    the quotient is removed whole; with no allocation there, the manager
    is unchanged. *)
Definition matchesByQuotient (m : MemoryManager) (address : Z) : Prop :=
  match blockAt (wordQuotient m address) (allocatedList m) with
  | Some _ =>
      allocatedList (free address m)
        = withoutBlockAt (wordQuotient m address) (allocatedList m)
  | None => free address m = m
  end.

(** "Its full extent returned to the Hole Ledger and coalesced", from the
    manager [m] before the call to [m'] after it, for the extent [e] of
    the allocation: the words in holes afterwards are the words in holes
    before and the words of [e]; and the holes afterwards are in strictly
    increasing offset order, each of positive length, no two of them
    adjacent. *)
Definition returnedAndCoalesced (m m' : MemoryManager) (e : Z * Z) : Prop :=
  (forall w, freeWord m' w <-> freeWord m w \/ fst e <= w < fst e + snd e) /\
  StronglySorted holeBefore (holeList m') /\
  Forall (fun h => 0 < Hole.length h) (holeList m') /\
  noAdjacentHoles (holeList m').

(** What [free] is said to do with an address, by its word quotient. *)
Definition freesByQuotient (m : MemoryManager) (address : Z) : Prop :=
  match blockAt (wordQuotient m address) (allocatedList m) with
  | Some b =>
      allocatedList (free address m)
        = withoutBlockAt (wordQuotient m address) (allocatedList m) /\
      returnedAndCoalesced m (free address m) (blockExtent b)
  | None => free address m = m
  end.

(** The invariants of the two ledgers in the spec's data model: the
    capacity is within the ceiling, the holes are in offset order inside
    the arena, of positive length and not adjacent, and the two ledgers
    tile the arena. *)
Definition ledgerInvariants (m : MemoryManager) : Prop :=
  capacityWords m <= MAX_NUM_WORDS /\
  holeChain 1 (-1) (capacityWords m) (holeList m) /\
  tiles m.

(** The allocation that the word quotient of [address] matches, if there
    is one, has a positive length. *)
Definition matchedExtentPositive (m : MemoryManager) (address : Z) : Prop :=
  forall b, blockAt (wordQuotient m address) (allocatedList m) = Some b ->
            0 < Block.length b.

(* ================================================================= *)
(** ** Two more states of the concrete runs *)

(** The 32-word arena of 8-byte words after three 4-word allocations and
    the release of the second: the Hole Ledger is [(4,4); (12,20)], the
    Allocation Ledger [(0,4); (8,4)]. *)
Definition fragmentedArena : MemoryManager :=
  perform (Free 4128)
    (perform (Allocate 32)
       (perform (Allocate 32) (perform (Allocate 32) demoArena))).

(** A 10-word arena of 1-byte words after two 2-word allocations, the
    release of the first and a request of 2^31 bytes: the Allocation
    Ledger is [(0,2^31); (2,2)], the Hole Ledger [(2^31,2^31+2); (4,6)]. *)
Definition arenaAfter2GiBRequest : MemoryManager :=
  perform (Allocate (2 ^ 31))
    (perform (Free 4096)
       (perform (Allocate 2)
          (perform (Allocate 2)
             (perform (Initialize (posix_mmap 4096) 10)
                      (construct 1 bestFit))))).

(* ================================================================= *)
(** * Properties *)

(** A conjunction of equations between closed terms: each is checked by
    evaluation. *)
Ltac evaluate :=
  intros;
  repeat match goal with |- _ /\ _ => split end;
  try match goal with |- _ = _ => vm_compute; reflexivity end.

(** ** Machine integers in range *)

Lemma u16_small x : 0 <= x < 2 ^ 16 -> u16 x = x.
Proof. intros H. unfold u16. now apply Z.mod_small. Qed.

Lemma u32_small x : 0 <= x < 2 ^ 32 -> u32 x = x.
Proof. intros H. unfold u32. now apply Z.mod_small. Qed.

Lemma u64_small x : 0 <= x < 2 ^ 64 -> u64 x = x.
Proof. intros H. unfold u64. now apply Z.mod_small. Qed.

Lemma s32_small x : 0 <= x < 2 ^ 31 -> s32 x = x.
Proof.
  intros H. unfold s32. rewrite u32_small by lia.
  destruct (Z.ltb_spec x (2 ^ 31)); lia.
Qed.

Lemma u32_range x : 0 <= u32 x < 2 ^ 32.
Proof. unfold u32. apply Z.mod_pos_bound. lia. Qed.

(* ================================================================= *)
(** ** The strategies' loop *)

Section FitLoop.

Variable better : Z -> Z -> bool.
Variable requestedWords : Z.

Let pick := pickHole better requestedWords.
Let enc := encodeHole.

Lemma flat_map_enc_length l :
  List.length (flat_map enc l) = (List.length l * 2)%nat.
Proof. induction l as [|h l IH]; simpl; lia. Qed.

(** Reading the array at the places of hole number [length pre]. *)
Lemma nth_encoded c pre h rest :
  nth (1 + List.length pre * 2) (c :: flat_map enc (pre ++ h :: rest)) 0
    = u16 (Hole.offset h) /\
  nth (2 + List.length pre * 2) (c :: flat_map enc (pre ++ h :: rest)) 0
    = u16 (Hole.length h).
Proof.
  rewrite flat_map_app. simpl flat_map.
  split.
  - change (1 + List.length pre * 2)%nat with (S (List.length pre * 2)).
    cbn [nth]. rewrite app_nth2; rewrite flat_map_enc_length; [|lia].
    now rewrite Nat.sub_diag.
  - change (2 + List.length pre * 2)%nat with (S (S (List.length pre * 2))).
    cbn [nth]. rewrite app_nth2; rewrite flat_map_enc_length; [|lia].
    replace (S (List.length pre * 2) - List.length pre * 2)%nat
      with 1%nat by lia.
    reflexivity.
Qed.

Lemma fold_fitStep c pre holes best :
  fold_left (fitStep better requestedWords
               (c :: flat_map enc (pre ++ holes)))
            (seq (List.length pre) (List.length holes)) best
  = fold_left pick holes best.
Proof.
  revert pre best. induction holes as [|h rest IH]; intros pre best.
  - reflexivity.
  - cbn [List.length seq fold_left].
    assert (Hstep : fitStep better requestedWords
                      (c :: flat_map enc (pre ++ h :: rest)) best
                      (List.length pre) = pick best h).
    { unfold fitStep, pick, pickHole.
      destruct (nth_encoded c pre h rest) as [-> ->]. reflexivity. }
    rewrite Hstep.
    replace (pre ++ h :: rest) with ((pre ++ [h]) ++ rest)
      by now rewrite <- app_assoc.
    replace (S (List.length pre)) with (List.length (pre ++ [h]))
      by (rewrite length_app; simpl; lia).
    apply IH.
Qed.

(** On the snapshot of a ledger, the loop of a strategy is a fold over
    the ledger. *)
Lemma fitLoop_encodeHoles holes init :
  Z.of_nat (List.length holes) < 2 ^ 16 ->
  fitLoop better requestedWords (encodeHoles holes) init
  = fst (fold_left pick holes init).
Proof.
  intros Hlen. unfold fitLoop, encodeHoles. cbn [nth].
  rewrite u16_small by lia. rewrite Nat2Z.id.
  f_equal. apply (fold_fitStep _ []).
Qed.

(** [better a b]: the length [a] replaces the best length [b]. *)
Hypothesis better_trans :
  forall a b c, better a b = true -> better b c = true -> better a c = true.
Hypothesis better_asym :
  forall a b, better a b = true -> better b a = false.

(** What the fold has chosen, for any starting pair: nothing replaced
    the start, or the chosen hole is the first among the best that fit
    and replace the start. *)
Lemma fold_pickHole holes bestOffset bestLength :
  Forall (fun h => 0 <= Hole.offset h < 2 ^ 16 /\
                   0 <= Hole.length h < 2 ^ 16) holes ->
  (fold_left pick holes (bestOffset, bestLength)
     = (bestOffset, bestLength) /\
   forall h, In h holes ->
     requestedWords <= Hole.length h ->
     better (Hole.length h) bestLength = false)
  \/
  (exists i h,
     nth_error holes i = Some h /\
     fold_left pick holes (bestOffset, bestLength)
       = (Hole.offset h, Hole.length h) /\
     requestedWords <= Hole.length h /\
     better (Hole.length h) bestLength = true /\
     forall j h', nth_error holes j = Some h' ->
       requestedWords <= Hole.length h' ->
       better (Hole.length h') (Hole.length h) = false /\
       (Hole.length h' = Hole.length h -> (i <= j)%nat)).
Proof.
  intros Hok. revert bestOffset bestLength.
  induction Hok as [|x rest [Hxo Hxl] Hrest IH]; intros bo bl.
  - left. split; [reflexivity | intros h []].
  - cbn [fold_left].
    assert (Hpick : pick (bo, bl) x
              = if (Hole.length x >=? requestedWords)
                   && better (Hole.length x) bl
                then (Hole.offset x, Hole.length x) else (bo, bl)).
    { unfold pick, pickHole. cbn [snd].
      now rewrite !u16_small by assumption. }
    rewrite Hpick. clear Hpick.
    destruct (Z.geb_spec (Hole.length x) requestedWords) as [Hfit|Hfit];
      cbn [andb];
      [destruct (better (Hole.length x) bl) eqn:Hb|].
    + (* [x] fits and replaces the best so far *)
      destruct (IH (Hole.offset x) (Hole.length x))
        as [[Hr Hnone]|(i & h & Hi & Hr & Hh & Hbh & Hmin)].
      * right. exists 0%nat, x.
        refine (conj eq_refl (conj Hr (conj _ (conj Hb _)))); [lia|].
        intros j h' Hj Hf. destruct j as [|j]; cbn [nth_error] in Hj.
        -- injection Hj as <-. split; [|lia].
           destruct (better (Hole.length x) (Hole.length x)) eqn:E;
             [|reflexivity].
           now rewrite (better_asym _ _ E) in E.
        -- split; [|lia]. apply Hnone; [|assumption].
           now apply nth_error_In in Hj.
      * right. exists (S i), h.
        refine (conj Hi (conj Hr (conj Hh (conj _ _)))).
        { now apply better_trans with (Hole.length x). }
        intros j h' Hj Hf. destruct j as [|j]; cbn [nth_error] in Hj.
        -- injection Hj as <-. split; [now apply better_asym|].
           intros Heq. rewrite Heq in Hbh.
           now rewrite (better_asym _ _ Hbh) in Hbh.
        -- destruct (Hmin j h' Hj Hf) as [Hm1 Hm2].
           split; [assumption|]. intros Heq. apply le_n_S. now apply Hm2.
    + (* [x] fits and does not replace the best so far *)
      destruct (IH bo bl)
        as [[Hr Hnone]|(i & h & Hi & Hr & Hh & Hbh & Hmin)].
      * left. split; [assumption|].
        intros h [<-|Hin] Hf; [assumption | now apply Hnone].
      * right. exists (S i), h.
        refine (conj Hi (conj Hr (conj Hh (conj Hbh _)))).
        intros j h' Hj Hf. destruct j as [|j]; cbn [nth_error] in Hj.
        -- injection Hj as <-. split.
           ++ destruct (better (Hole.length x) (Hole.length h)) eqn:E;
                [|reflexivity].
              now rewrite (better_trans _ _ _ E Hbh) in Hb.
           ++ intros Heq. rewrite Heq in Hb. congruence.
        -- destruct (Hmin j h' Hj Hf) as [Hm1 Hm2].
           split; [assumption|]. intros Heq. apply le_n_S. now apply Hm2.
    + (* [x] is too small *)
      destruct (IH bo bl)
        as [[Hr Hnone]|(i & h & Hi & Hr & Hh & Hbh & Hmin)].
      * left. split; [assumption|].
        intros h [<-|Hin] Hf; [lia | now apply Hnone].
      * right. exists (S i), h.
        refine (conj Hi (conj Hr (conj Hh (conj Hbh _)))).
        intros j h' Hj Hf. destruct j as [|j]; cbn [nth_error] in Hj.
        -- injection Hj as <-. lia.
        -- destruct (Hmin j h' Hj Hf) as [Hm1 Hm2].
           split; [assumption|]. intros Heq. apply le_n_S. now apply Hm2.
Qed.

End FitLoop.

(* ================================================================= *)
(** ** Best fit and worst fit *)

Lemma exampleHoles_fitsSnapshot : fitsSnapshot exampleHoles.
Proof.
  split; [reflexivity|].
  repeat constructor; cbn; lia.
Defined.

(** C5. On the snapshot of any Hole Ledger that fits the 16-bit encoding
    and for any requested word count, [bestFit] either returns the
    sentinel -1 and no hole is large enough, or returns the offset of a
    hole that is large enough, of the smallest length among the holes that
    are large enough, and first in list order among those of that length.
    On the holes [(0,4); (10,2); (20,8)] with a request of 2 words it
    returns 10. *)
Theorem bestFit_first_smallest_fit :
  forall (holes : list Hole.t) (requestedWords : Z),
    fitsSnapshot holes ->
    ((bestFit requestedWords (encodeHoles holes) = -1 /\
      noHoleFits holes requestedWords)
     \/
     (exists i h,
        firstSmallestFit holes requestedWords i h /\
        bestFit requestedWords (encodeHoles holes) = Hole.offset h))
    /\ bestFit 2 (encodeHoles exampleHoles) = 10.
Proof.
  intros holes req [Hlen Hok]. split; [|reflexivity].
  unfold bestFit. rewrite fitLoop_encodeHoles by assumption.
  destruct (fold_pickHole Z.ltb req) with (holes := holes)
    (bestOffset := -1) (bestLength := MAX_NUM_WORDS + 1)
    as [[Hr Hnone]|(i & h & Hi & Hr & Hh & _ & Hmin)]; try assumption.
  - intros a b c. rewrite !Z.ltb_lt. lia.
  - intros a b. rewrite Z.ltb_lt, Z.ltb_ge. lia.
  - left. rewrite Hr. split; [reflexivity|].
    intros h Hin.
    destruct (Z.lt_ge_cases (Hole.length h) req) as [|Hge]; [assumption|].
    specialize (Hnone h Hin ltac:(lia)). rewrite Z.ltb_ge in Hnone.
    rewrite Forall_forall in Hok. specialize (Hok h Hin).
    unfold MAX_NUM_WORDS in Hnone. lia.
  - right. exists i, h. rewrite Hr. split; [|reflexivity].
    split; [assumption|]. split; [assumption|].
    intros j h' Hj Hf. destruct (Hmin j h' Hj Hf) as [Hm1 Hm2].
    rewrite Z.ltb_ge in Hm1. split; assumption.
Qed.

Lemma bestFit_first_smallest_fit_witness :
  fitsSnapshot exampleHoles /\
  (((bestFit 2 (encodeHoles exampleHoles) = -1 /\
     noHoleFits exampleHoles 2)
    \/
    (exists i h,
       firstSmallestFit exampleHoles 2 i h /\
       bestFit 2 (encodeHoles exampleHoles) = Hole.offset h))
   /\ bestFit 2 (encodeHoles exampleHoles) = 10).
Proof.
  split; [exact exampleHoles_fitsSnapshot|].
  apply (bestFit_first_smallest_fit exampleHoles 2).
  exact exampleHoles_fitsSnapshot.
Defined.

(** C6. On the snapshot of any Hole Ledger that fits the 16-bit encoding
    and for any requested word count, [worstFit] either returns the
    sentinel -1 and no hole is large enough, or returns the offset of a
    hole that is large enough, of the largest length among the holes that
    are large enough, and first in list order among those of that length.
    On the holes [(0,4); (10,2); (20,8)] with a request of 2 words it
    returns 20. *)
Theorem worstFit_first_largest_fit :
  forall (holes : list Hole.t) (requestedWords : Z),
    fitsSnapshot holes ->
    ((worstFit requestedWords (encodeHoles holes) = -1 /\
      noHoleFits holes requestedWords)
     \/
     (exists i h,
        firstLargestFit holes requestedWords i h /\
        worstFit requestedWords (encodeHoles holes) = Hole.offset h))
    /\ worstFit 2 (encodeHoles exampleHoles) = 20.
Proof.
  intros holes req [Hlen Hok]. split; [|reflexivity].
  unfold worstFit. rewrite fitLoop_encodeHoles by assumption.
  destruct (fold_pickHole Z.gtb req) with (holes := holes)
    (bestOffset := -1) (bestLength := -1)
    as [[Hr Hnone]|(i & h & Hi & Hr & Hh & _ & Hmin)]; try assumption.
  - intros a b c. rewrite !Z.gtb_ltb, !Z.ltb_lt. lia.
  - intros a b. rewrite !Z.gtb_ltb, Z.ltb_lt, Z.ltb_ge. lia.
  - left. rewrite Hr. split; [reflexivity|].
    intros h Hin.
    destruct (Z.lt_ge_cases (Hole.length h) req) as [|Hge]; [assumption|].
    specialize (Hnone h Hin ltac:(lia)).
    rewrite Z.gtb_ltb, Z.ltb_ge in Hnone.
    rewrite Forall_forall in Hok. specialize (Hok h Hin). lia.
  - right. exists i, h. rewrite Hr. split; [|reflexivity].
    split; [assumption|]. split; [assumption|].
    intros j h' Hj Hf. destruct (Hmin j h' Hj Hf) as [Hm1 Hm2].
    rewrite Z.gtb_ltb, Z.ltb_ge in Hm1. split; assumption.
Qed.

Lemma worstFit_first_largest_fit_witness :
  fitsSnapshot exampleHoles /\
  (((worstFit 2 (encodeHoles exampleHoles) = -1 /\
     noHoleFits exampleHoles 2)
    \/
    (exists i h,
       firstLargestFit exampleHoles 2 i h /\
       worstFit 2 (encodeHoles exampleHoles) = Hole.offset h))
   /\ worstFit 2 (encodeHoles exampleHoles) = 20).
Proof.
  split; [exact exampleHoles_fitsSnapshot|].
  apply (worstFit_first_largest_fit exampleHoles 2).
  exact exampleHoles_fitsSnapshot.
Defined.

(* ================================================================= *)
(** ** Arena lifecycle *)

(** [initialize] throws [std::invalid_argument] exactly when the size
    exceeds [MAX_NUM_WORDS]. *)
Lemma initialize_invalid_argument_iff mmap sizeInWords m :
  snd (initialize mmap sizeInWords m) = invalid_argument
  <-> MAX_NUM_WORDS < sizeInWords.
Proof.
  unfold initialize.
  destruct (Z.gtb_spec sizeInWords MAX_NUM_WORDS) as [Hgt|Hle]; cbn [snd].
  - split; [intros _; assumption | reflexivity].
  - split; [|lia].
    destruct (_ =? MAP_FAILED); cbn [snd]; discriminate.
Qed.

(** X23. After a throw of [initialize], whichever of the two it is and
    whatever the manager was, no arena is live. *)
Lemma initialize_throw_not_live mmap sizeInWords m :
  snd (initialize mmap sizeInWords m) <> returned ->
  memoryStart (fst (initialize mmap sizeInWords m)) = nullptr.
Proof.
  unfold initialize.
  destruct (Z.eqb_spec (memoryStart m) nullptr) as [Hnull|Hlive];
    destruct (sizeInWords >? MAX_NUM_WORDS); cbn [fst snd];
    try (destruct (_ =? MAP_FAILED); cbn [fst snd memoryStart];
         [reflexivity | congruence]);
    intros _.
  - assumption.
  - cbn. destruct (Z.eqb_spec (memoryStart m) nullptr); [assumption|reflexivity].
Qed.

(** X24. With a size of at most 65535 that [mmap] grants, [initialize]
    returns and, whatever the manager held before, the Hole Ledger is the
    one hole spanning the arena and the Allocation Ledger is empty. *)
Lemma initialize_returns mmap sizeInWords m :
  0 <= sizeInWords <= MAX_NUM_WORDS ->
  mmap (u64 (sizeInWords * wordSize m)) <> MAP_FAILED ->
  snd (initialize mmap sizeInWords m) = returned /\
  holeList (fst (initialize mmap sizeInWords m)) = [Hole.mk 0 sizeInWords] /\
  allocatedList (fst (initialize mmap sizeInWords m)) = [] /\
  memoryStart (fst (initialize mmap sizeInWords m))
    = mmap (u64 (sizeInWords * wordSize m)).
Proof.
  intros Hrange Hmap. unfold initialize.
  assert (Hws : wordSize (if memoryStart m =? nullptr then m else shutdown m)
                = wordSize m) by (destruct (_ =? _); reflexivity).
  rewrite Hws.
  destruct (Z.gtb_spec sizeInWords MAX_NUM_WORDS) as [Hgt|_]; [lia|].
  destruct (Z.eqb_spec (mmap (u64 (sizeInWords * wordSize m))) MAP_FAILED)
    as [E|_]; [contradiction|].
  cbn. rewrite u32_small by (unfold MAX_NUM_WORDS in Hrange; lia).
  repeat split.
Qed.

(** C1 (the code at the failing input). [initialize(0)] passes the size
    check and asks [mmap] for 0 bytes: it throws [std::runtime_error] when
    [mmap] fails and returns otherwise; it never throws the
    [std::invalid_argument] that stands for InvalidSize. *)
Theorem initialize_zero_passes_size_check :
  forall (mmap : Z -> Z) (m : MemoryManager),
    snd (initialize mmap 0 m)
      = (if mmap 0 =? MAP_FAILED then runtime_error else returned)
    /\ snd (initialize (posix_mmap 4096) 0 (construct 8 bestFit))
       = runtime_error
    /\ snd (initialize (posix_mmap 4096) 65535 (construct 8 bestFit))
       = returned
    /\ snd (initialize (posix_mmap 4096) 65536 (construct 8 bestFit))
       = invalid_argument.
Proof.
  intros mmap m. split; [|evaluate].
  unfold initialize. cbn [Z.gtb Z.compare MAX_NUM_WORDS Z.mul].
  change (u64 0) with 0.
  destruct (mmap 0 =? MAP_FAILED); reflexivity.
Qed.

(* ================================================================= *)
(** ** Requests whose word count leaves the range of [int] *)

Lemma arena10_initialized :
  snd (initialize (posix_mmap 4096) 10 (construct 1 bestFit)) = returned /\
  memoryStart arena10 = 4096 /\ capacityWords arena10 = 10 /\
  holeList arena10 = [Hole.mk 0 10] /\ allocatedList arena10 = [].
Proof. evaluate. Qed.

(** C2 (the code at the failing input). In a 10-word arena of 1-byte
    words under best fit, [allocate(2^31)] passes -2^31 to the strategy,
    which picks the hole at 0; the call returns the arena base, records
    an allocation of 2^31 words at offset 0 and leaves a hole at offset
    2^31: word 10, outside the arena, lies in an extent, and the ledgers
    do not tile [[0, 10)]. When the same request comes after two 2-word
    allocations and the release of the first, the new allocation lies
    over the second one and over the hole (4,6): word 4 lies in two
    extents. *)
Theorem allocate_2GiB_breaks_tiling :
  (s32 (wordsFor arena10 (2 ^ 31)) = - 2 ^ 31 /\
   fst (allocate (2 ^ 31) arena10) = 4096 /\
   capacityWords (snd (allocate (2 ^ 31) arena10)) = 10 /\
   allocatedList (snd (allocate (2 ^ 31) arena10)) = [Block.mk 0 (2 ^ 31)] /\
   holeList (snd (allocate (2 ^ 31) arena10))
     = [Hole.mk (2 ^ 31) (2 ^ 31 + 10)] /\
   coverCount 10 (extents (snd (allocate (2 ^ 31) arena10))) = 1%nat /\
   ~ tiles (snd (allocate (2 ^ 31) arena10)))
  /\
  (let m1 := snd (allocate 2 arena10) in
   let m2 := snd (allocate 2 m1) in
   let m3 := free (fst (allocate 2 arena10)) m2 in
   let m4 := snd (allocate (2 ^ 31) m3) in
   holeList m3 = [Hole.mk 0 2; Hole.mk 4 6] /\
   allocatedList m3 = [Block.mk 2 2] /\
   fst (allocate (2 ^ 31) m3) = 4096 /\
   allocatedList m4 = [Block.mk 0 (2 ^ 31); Block.mk 2 2] /\
   holeList m4 = [Hole.mk (2 ^ 31) (2 ^ 31 + 2); Hole.mk 4 6] /\
   coverCount 4 (extents m4) = 2%nat /\
   ~ tiles m4).
Proof.
  split.
  - evaluate.
    intros Htiles. specialize (Htiles 10).
    vm_compute in Htiles. discriminate Htiles.
  - evaluate.
    intros Htiles. specialize (Htiles 4).
    vm_compute in Htiles. discriminate Htiles.
Qed.

(** C3 (the code at the failing input). In the same arena: two 2-word
    allocations, the first freed, a request of 2^31 bytes, then the second
    freed. After that [free] the Hole Ledger holds (2,2) and (4,6), which
    are adjacent, with a wrapped hole between them in the list. *)
Theorem free_after_2GiB_request_leaves_adjacent_holes :
  let m1 := snd (allocate 2 arena10) in
  let m2 := snd (allocate 2 m1) in
  let m3 := free (fst (allocate 2 arena10)) m2 in
  let m4 := snd (allocate (2 ^ 31) m3) in
  let m5 := free (fst (allocate 2 m1)) m4 in
  fst (allocate 2 arena10) = 4096 /\ fst (allocate 2 m1) = 4098 /\
  holeList m3 = [Hole.mk 0 2; Hole.mk 4 6] /\
  fst (allocate (2 ^ 31) m3) = 4096 /\
  holeList m5
    = [Hole.mk 2 2; Hole.mk (2 ^ 31) (2 ^ 31 + 2); Hole.mk 4 6] /\
  ~ noAdjacentHoles (holeList m5).
Proof.
  intros m1 m2 m3 m4 m5.
  assert (E : holeList m5
              = [Hole.mk 2 2; Hole.mk (2 ^ 31) (2 ^ 31 + 2); Hole.mk 4 6])
    by (vm_compute; reflexivity).
  evaluate.
  intros Hno. rewrite E in Hno.
  specialize (Hno (Hole.mk 2 2) (Hole.mk 4 6) (or_introl eq_refl)
                  (or_intror (or_intror (or_introl eq_refl)))).
  cbn [Hole.offset Hole.length] in Hno. lia.
Qed.

(** C4 (the code at the failing input). In the same arena,
    [allocate(2^32)] computes a word count of 0 where the ceiling of
    2^32 / 1 is 2^32; best fit picks the hole at 0, the hole is left as it
    is, an allocation of 0 words is recorded and the arena base is
    returned. *)
Theorem allocate_4GiB_requests_zero_words :
  wordsFor arena10 (2 ^ 32) = 0 /\
  fst (allocate (2 ^ 32) arena10) = 4096 /\
  holeList (snd (allocate (2 ^ 32) arena10)) = [Hole.mk 0 10] /\
  allocatedList (snd (allocate (2 ^ 32) arena10)) = [Block.mk 0 0].
Proof. evaluate. Qed.

(** C8 (the code at the failing input). In the same arena,
    [a = allocate(2^32)] is not null, and [free(a)] right after it leaves
    a Hole Ledger of two holes, (0,0) and (0,10), where there was the one
    hole (0,10): [free] takes the recorded length 0 for "no block found"
    and returns before [mergeHoles]. *)
Theorem free_after_4GiB_request_changes_holes :
  let a := fst (allocate (2 ^ 32) arena10) in
  let m := snd (allocate (2 ^ 32) arena10) in
  a = 4096 /\
  holeList arena10 = [Hole.mk 0 10] /\
  holeList (free a m) = [Hole.mk 0 0; Hole.mk 0 10] /\
  allocatedList (free a m) = [].
Proof. evaluate. Qed.

(* ================================================================= *)
(** ** The dump *)

(** C9 (the code at the failing input). With the Hole Ledger
    [(0,4); (10,2)], a file system where only the second [write] (the one
    of the delimiter) fails: [dumpMemoryMap] returns 0 and the file holds
    the two entries with nothing between them. A failed write of an entry
    (the first or the third call) makes it return -1. *)
Theorem dumpMemoryMap_ignores_failed_delimiter_write :
  holeList twoHoles = [Hole.mk 0 4; Hole.mk 10 2] /\
  dumpMemoryMap (failingWrite 1) "memory_map.txt" None twoHoles
    = (0, Some "[0, 4][10, 2]"%string) /\
  fst (dumpMemoryMap (failingWrite 0) "memory_map.txt" None twoHoles) = -1 /\
  fst (dumpMemoryMap (failingWrite 2) "memory_map.txt" None twoHoles) = -1 /\
  dumpMemoryMap (failingWrite 3) "memory_map.txt" None twoHoles
    = (0, Some "[0, 4] - [10, 2]"%string).
Proof. evaluate. Qed.

(* ================================================================= *)
(** ** When [allocate] returns null *)

Lemma takeFromHole_None wordOffset sizeInWords holes :
  takeFromHole wordOffset sizeInWords holes = None
  <-> forall h, In h holes -> Hole.offset h <> wordOffset.
Proof.
  induction holes as [|x rest IH]; cbn [takeFromHole].
  - split; [intros _ h [] | reflexivity].
  - destruct (Z.eqb_spec (Hole.offset x) wordOffset) as [E|E].
    + split; [discriminate|]. intros H. now destruct (H x (or_introl eq_refl)).
    + destruct (takeFromHole wordOffset sizeInWords rest); cbn [option_map].
      * split; [discriminate|]. intros H.
        assert (Some l = None) as Habs; [|discriminate Habs].
        apply IH. intros h Hin. apply H. now right.
      * split; [|reflexivity]. intros _ h [<-|Hin]; [assumption|].
        now apply IH.
Qed.

(** A strategy that is not conforming makes [allocate] return null in
    one more way: [alwaysSeven] answers 7 for the ledger [(0,10)], where
    no hole starts, and the loop over the Hole Ledger finds nothing. *)
Example allocate_null_when_strategy_strays :
  fst (allocate 1 (setAllocator alwaysSeven arena10)) = nullptr /\
  strategyMissesLedger (setAllocator alwaysSeven arena10) 1 /\
  ~ nullCasesAsStated (setAllocator alwaysSeven arena10) 1.
Proof.
  split; [reflexivity|]. split.
  - exists (encodeHoles [Hole.mk 0 10]). split; [reflexivity|].
    split; [discriminate|].
    intros h [<-|[]]. discriminate.
  - intros [H|[H|[H|(l & _ & Ho)]]]; discriminate.
Qed.


(* ================================================================= *)
(** ** What [free] matches *)

Lemma removeBlock_blockAt q l :
  removeBlock q l
  = match blockAt q l with
    | Some b => Some (Block.length b, withoutBlockAt q l)
    | None => None
    end.
Proof.
  induction l as [|b rest IH]; cbn [removeBlock blockAt find withoutBlockAt].
  - reflexivity.
  - destruct (Block.offset b =? q); [reflexivity|].
    rewrite IH. unfold blockAt. now destruct (find _ rest).
Qed.

(** The word offset [free] computes is the word quotient of the address,
    for an address at or above the base whose quotient fits 32 bits. *)
Lemma wordOffsetOf_wordQuotient m address :
  0 < wordSize m < 2 ^ 32 ->
  memoryStart m <= address ->
  wordQuotient m address < 2 ^ 32 ->
  wordOffsetOf m address = wordQuotient m address.
Proof.
  intros Hws Hbase Hq. unfold wordOffsetOf, wordQuotient in *.
  set (d := address - memoryStart m) in *.
  assert (Hd : 0 <= d) by (unfold d; lia).
  pose proof (Z.div_pos d (wordSize m) Hd ltac:(lia)) as Hq0.
  pose proof (Z.mod_pos_bound d (wordSize m) ltac:(lia)) as Hr.
  pose proof (Z.div_mod d (wordSize m) ltac:(lia)) as Hdm.
  rewrite u64_small by nia.
  apply u32_small. lia.
Qed.

(* ================================================================= *)
(** * Calls in range keep the ledgers well formed *)

(** ** Counting the extents over a word *)

Lemma coverCount_app w es1 es2 :
  coverCount w (es1 ++ es2) = (coverCount w es1 + coverCount w es2)%nat.
Proof. induction es1 as [|e es1 IH]; cbn [coverCount app]; lia. Qed.

Lemma coverCount_In w e es :
  In e es -> inExtent w e = true -> (1 <= coverCount w es)%nat.
Proof.
  induction es as [|x es IH]; intros Hin Hw; [destruct Hin|].
  cbn [coverCount]. destruct Hin as [->|Hin].
  - unfold covers. rewrite Hw. lia.
  - specialize (IH Hin Hw). lia.
Qed.

Lemma inExtent_iff w e :
  inExtent w e = true <-> fst e <= w < fst e + snd e.
Proof. unfold inExtent. rewrite andb_true_iff, Z.leb_le, Z.ltb_lt. lia. Qed.

Lemma coverCount_insertHole w h l :
  coverCount w (map holeExtent (insertHole h l))
  = coverCount w (holeExtent h :: map holeExtent l).
Proof.
  induction l as [|x l IH]; cbn [insertHole]; [reflexivity|].
  destruct (Hole.offset x <? Hole.offset h); [|reflexivity].
  cbn [map coverCount] in *. rewrite IH. lia.
Qed.

Lemma coverCount_insertBlock w b l :
  coverCount w (map blockExtent (insertBlock b l))
  = coverCount w (blockExtent b :: map blockExtent l).
Proof.
  induction l as [|x l IH]; cbn [insertBlock]; [reflexivity|].
  destruct (Block.offset x <? Block.offset b); [|reflexivity].
  cbn [map coverCount] in *. rewrite IH. lia.
Qed.

(** Under the tiling, an extent of positive length lies in the arena. *)
Lemma tiles_extent_range m e :
  tiles m -> In e (extents m) -> 0 < snd e ->
  0 <= fst e /\ fst e + snd e <= capacityWords m.
Proof.
  intros Ht Hin Hpos.
  assert (Hlo : inExtent (fst e) e = true) by (apply inExtent_iff; lia).
  assert (Hhi : inExtent (fst e + snd e - 1) e = true)
    by (apply inExtent_iff; lia).
  pose proof (coverCount_In _ _ _ Hin Hlo) as Clo.
  pose proof (coverCount_In _ _ _ Hin Hhi) as Chi.
  rewrite Ht in Clo, Chi.
  destruct (Z.leb_spec 0 (fst e)); cbn [andb] in Clo; [|lia].
  destruct (Z.leb_spec 0 (fst e + snd e - 1)); cbn [andb] in Chi; [|lia].
  destruct (Z.ltb_spec (fst e + snd e - 1) (capacityWords m)); lia.
Qed.

(** Under the tiling, no word lies both in a hole and in an allocation. *)
Lemma tiles_hole_block_disjoint m h b w :
  tiles m -> In h (holeList m) -> In b (allocatedList m) ->
  inExtent w (holeExtent h) = true -> inExtent w (blockExtent b) = true ->
  False.
Proof.
  intros Ht Hh Hb Hwh Hwb. specialize (Ht w).
  unfold extents in Ht. rewrite coverCount_app in Ht.
  pose proof (coverCount_In w _ _ (in_map holeExtent _ _ Hh) Hwh).
  pose proof (coverCount_In w _ _ (in_map blockExtent _ _ Hb) Hwb).
  destruct ((0 <=? w) && (w <? capacityWords m)); lia.
Qed.

(** ** Chains of holes *)

Lemma holeChain_bounds gap lo hi holes :
  0 <= gap -> holeChain gap lo hi holes -> lo <= hi.
Proof.
  intros Hg. revert lo. induction holes as [|h rest IH]; intros lo; cbn.
  - trivial.
  - intros (H1 & H2 & H3). specialize (IH _ H3). lia.
Qed.

Lemma holeChain_In gap lo hi holes h :
  0 <= gap -> holeChain gap lo hi holes -> In h holes ->
  lo + gap <= Hole.offset h /\ 0 < Hole.length h /\
  Hole.offset h + Hole.length h <= hi.
Proof.
  intros Hg. revert lo. induction holes as [|x rest IH]; intros lo Hc Hin.
  - destruct Hin.
  - cbn in Hc. destruct Hc as (H1 & H2 & H3). destruct Hin as [<-|Hin].
    + pose proof (holeChain_bounds _ _ _ _ Hg H3). lia.
    + specialize (IH _ H3 Hin). lia.
Qed.

Lemma holeChain_weaken gap gap' lo lo' hi holes :
  0 <= gap' <= gap -> lo' + gap' <= lo + gap -> lo' <= hi ->
  holeChain gap lo hi holes -> holeChain gap' lo' hi holes.
Proof.
  intros Hg. revert lo lo'.
  induction holes as [|h rest IH]; intros lo lo' Hlo Hhi; cbn.
  - lia.
  - intros (H1 & H2 & H3). repeat split; try lia.
    apply IH with (lo := Hole.offset h + Hole.length h); try lia.
    + apply (holeChain_bounds gap _ _ rest); [lia|assumption].
    + assumption.
Qed.

Lemma holeChain_length lo hi holes :
  holeChain 1 lo hi holes ->
  2 * Z.of_nat (List.length holes) <= hi - lo + 1.
Proof.
  revert lo. induction holes as [|h rest IH]; intros lo; cbn [holeChain].
  - cbn. lia.
  - intros (H1 & H2 & H3). specialize (IH _ H3).
    cbn [List.length]. lia.
Qed.

(** A chain inside a 16-bit arena fits the snapshot. *)
Lemma holeChain_fitsSnapshot hi holes :
  hi <= MAX_NUM_WORDS -> holeChain 1 (-1) hi holes -> fitsSnapshot holes.
Proof.
  intros Hhi Hc. unfold MAX_NUM_WORDS in Hhi. split.
  - pose proof (holeChain_length _ _ _ Hc). lia.
  - apply Forall_forall. intros h Hin.
    destruct (holeChain_In 1 _ _ _ h ltac:(lia) Hc Hin) as (H1 & H2 & H3).
    lia.
Qed.

(** In a chain with gaps the spec's no-adjacency holds. *)
Lemma holeChain_noAdjacentHoles lo hi holes :
  holeChain 1 lo hi holes -> noAdjacentHoles holes.
Proof.
  revert lo. induction holes as [|x rest IH]; intros lo Hc h1 h2 H1 H2 Hlt.
  - destruct H1.
  - cbn in Hc. destruct Hc as (Hx1 & Hx2 & Hx3).
    destruct H1 as [<-|H1], H2 as [<-|H2].
    + lia.
    + destruct (holeChain_In 1 _ _ _ h2 ltac:(lia) Hx3 H2). lia.
    + destruct (holeChain_In 1 _ _ _ h1 ltac:(lia) Hx3 H1). lia.
    + now apply (IH _ Hx3).
Qed.

(** ** The steps of [allocate] and [free] on a chain *)

Lemma inExtent_split w o len req :
  0 < req < len ->
  covers w (o, len)
  = (covers w (o, req)
     + covers w ((o + req)%Z, (len - req)%Z))%nat.
Proof.
  intros H. unfold covers, inExtent. cbn [fst snd].
  destruct (Z.leb_spec o w), (Z.ltb_spec w (o + len)),
    (Z.ltb_spec w (o + req)), (Z.leb_spec (o + req) w),
    (Z.ltb_spec w (o + req + (len - req))); cbn; lia.
Qed.

Lemma inExtent_join w o len1 len2 :
  0 < len1 -> 0 < len2 ->
  covers w (o, len1 + len2)
  = (covers w (o, len1)
     + covers w ((o + len1)%Z, len2))%nat.
Proof.
  intros H1 H2. unfold covers, inExtent. cbn [fst snd].
  destruct (Z.leb_spec o w), (Z.ltb_spec w (o + (len1 + len2))),
    (Z.ltb_spec w (o + len1)), (Z.leb_spec (o + len1) w),
    (Z.ltb_spec w (o + len1 + len2)); cbn; lia.
Qed.

(** Taking [req] words from the low end of a hole of a chain. *)
Lemma takeFromHole_chain holes :
  forall lo hi h req,
    holeChain 1 lo hi holes -> In h holes ->
    0 < req <= Hole.length h -> 0 <= lo + 1 -> hi < 2 ^ 32 ->
    exists holes',
      takeFromHole (Hole.offset h) req holes = Some holes' /\
      holeChain 1 lo hi holes' /\
      forall w,
        coverCount w (map holeExtent holes)
        = (covers w (Hole.offset h, req)
           + coverCount w (map holeExtent holes'))%nat.
Proof.
  induction holes as [|x rest IH]; intros lo hi h req Hc Hin Hreq Hlo Hhi.
  - destruct Hin.
  - cbn [holeChain] in Hc. destruct Hc as (Hx1 & Hx2 & Hx3).
    pose proof (holeChain_bounds 1 _ _ _ ltac:(lia) Hx3) as Hend.
    cbn [takeFromHole].
    destruct (Z.eqb_spec (Hole.offset x) (Hole.offset h)) as [Heq|Hne].
    + assert (x = h) as ->.
      { destruct Hin as [E|Hin]; [assumption|].
        destruct (holeChain_In 1 _ _ _ h ltac:(lia) Hx3 Hin). lia. }
      destruct (Z.eqb_spec (Hole.length h) req) as [Hex|Hpart].
      * exists rest. split; [reflexivity|]. split.
        -- apply holeChain_weaken with (gap := 1)
             (lo := Hole.offset h + Hole.length h); try lia. assumption.
        -- intros w. cbn [map coverCount]. unfold holeExtent at 1.
           now rewrite Hex.
      * rewrite !u32_small by lia.
        eexists. split; [reflexivity|]. split.
        -- cbn [holeChain Hole.offset Hole.length]. repeat split; try lia.
           now replace (Hole.offset h + req + (Hole.length h - req))
             with (Hole.offset h + Hole.length h) by lia.
        -- intros w. cbn [map coverCount]. unfold holeExtent at 1 3.
           cbn [Hole.offset Hole.length].
           rewrite (inExtent_split w (Hole.offset h) (Hole.length h) req)
             by lia.
           lia.
    + destruct Hin as [E|Hin]; [congruence|].
      destruct (IH _ hi h req Hx3 Hin Hreq ltac:(lia) Hhi)
        as (holes' & Ht & Hc' & Hcov).
      rewrite Ht. cbn [option_map]. eexists. split; [reflexivity|]. split.
      * cbn [holeChain]. repeat split; assumption.
      * intros w. cbn [map coverCount]. rewrite Hcov. lia.
Qed.

(** Inserting a hole that overlaps none of a chain. *)
Lemma insertHole_chain holes :
  forall lo hi b,
    holeChain 0 lo hi holes ->
    lo <= Hole.offset b -> 0 < Hole.length b ->
    Hole.offset b + Hole.length b <= hi ->
    (forall h w, In h holes -> inExtent w (holeExtent h) = true ->
                 inExtent w (holeExtent b) = true -> False) ->
    holeChain 0 lo hi (insertHole b holes).
Proof.
  induction holes as [|x rest IH]; intros lo hi b Hc Hlo Hlen Hhi Hdis.
  - cbn. lia.
  - cbn [holeChain] in Hc. destruct Hc as (Hx1 & Hx2 & Hx3).
    cbn [insertHole].
    destruct (Z.ltb_spec (Hole.offset x) (Hole.offset b)) as [Hlt|Hge].
    + cbn [holeChain]. repeat split; try assumption.
      apply IH; try assumption.
      * destruct (Z.le_gt_cases (Hole.offset x + Hole.length x)
                                (Hole.offset b)) as [|Hov]; [assumption|].
        exfalso. apply (Hdis x (Hole.offset b)); [now left| |];
          apply inExtent_iff; cbn; lia.
      * intros h w Hin. apply Hdis. now right.
    + cbn [holeChain]. repeat split; try assumption; try lia.
      destruct (Z.le_gt_cases (Hole.offset b + Hole.length b)
                              (Hole.offset x)) as [|Hov]; [lia|].
      exfalso. apply (Hdis x (Hole.offset x)); [now left| |];
        apply inExtent_iff; cbn; lia.
Qed.

(** [mergeHoles] on a chain whose holes may touch. *)
Lemma mergeFrom_chain rest :
  forall cur lo hi,
    holeChain 0 lo hi (cur :: rest) -> 0 <= lo -> hi < 2 ^ 32 ->
    holeChain 1 (lo - 1) hi (mergeFrom cur rest) /\
    forall w,
      coverCount w (map holeExtent (mergeFrom cur rest))
      = coverCount w (map holeExtent (cur :: rest)).
Proof.
  induction rest as [|next rest IH]; intros cur lo hi Hc Hlo Hhi.
  - cbn in *. split; [|reflexivity]. lia.
  - cbn [holeChain] in Hc.
    destruct Hc as (Hc1 & Hc2 & Hn1 & Hn2 & Hrest).
    pose proof (holeChain_bounds 0 _ _ _ ltac:(lia) Hrest) as Hend.
    cbn [mergeFrom]. rewrite u32_small by lia.
    destruct (Z.eqb_spec (Hole.offset cur + Hole.length cur)
                         (Hole.offset next)) as [Htouch|Hapart].
    + rewrite u32_small by lia.
      destruct (IH (Hole.mk (Hole.offset cur)
                            (Hole.length cur + Hole.length next)) lo hi)
        as [Hch Hcov]; try assumption.
      { cbn [holeChain Hole.offset Hole.length]. repeat split; try lia.
        now replace (Hole.offset cur + (Hole.length cur + Hole.length next))
          with (Hole.offset next + Hole.length next) by lia. }
      split; [assumption|].
      intros w. rewrite Hcov. cbn [map coverCount].
      unfold holeExtent at 1 3 4. cbn [Hole.offset Hole.length].
      rewrite inExtent_join by assumption. rewrite Htouch. lia.
    + destruct (IH next (Hole.offset cur + Hole.length cur + 1) hi)
        as [Hch Hcov]; try lia.
      { cbn [holeChain]. repeat split; try assumption; lia. }
      split.
      * cbn [holeChain]. repeat split; try lia.
        now replace (Hole.offset cur + Hole.length cur + 1 - 1)
          with (Hole.offset cur + Hole.length cur) in Hch by lia.
      * intros w. cbn [map coverCount] in *. rewrite Hcov. reflexivity.
Qed.

(** A chain with gaps is left as it is by [mergeHoles]. *)
Lemma mergeFrom_apart rest :
  forall cur lo hi,
    holeChain 1 lo hi (cur :: rest) -> 0 <= lo + 1 -> hi < 2 ^ 32 ->
    mergeFrom cur rest = cur :: rest.
Proof.
  induction rest as [|next rest IH]; intros cur lo hi Hc Hlo Hhi.
  - reflexivity.
  - cbn [holeChain] in Hc.
    destruct Hc as (Hc1 & Hc2 & Hn1 & Hn2 & Hrest).
    pose proof (holeChain_bounds 1 _ _ _ ltac:(lia) Hrest) as Hend.
    cbn [mergeFrom]. rewrite u32_small by lia.
    destruct (Z.eqb_spec (Hole.offset cur + Hole.length cur)
                         (Hole.offset next)) as [Htouch|_]; [lia|].
    f_equal. apply (IH next (Hole.offset cur + Hole.length cur) hi);
      try lia.
    cbn [holeChain]. repeat split; assumption.
Qed.

(** What [removeBlock] finds and leaves. *)
Lemma removeBlock_Some q l len l' :
  removeBlock q l = Some (len, l') ->
  In (Block.mk q len) l /\
  (forall w, coverCount w (map blockExtent l)
             = (covers w (q, len)
                + coverCount w (map blockExtent l'))%nat) /\
  (forall P : Block.t -> Prop, Forall P l -> Forall P l').
Proof.
  revert l'. induction l as [|b rest IH]; intros l'; cbn [removeBlock].
  - discriminate.
  - destruct (Z.eqb_spec (Block.offset b) q) as [Heq|Hne].
    + intros [= <- <-]. destruct b as [o n]. cbn in Heq. subst o.
      split; [now left|]. split; [reflexivity|].
      intros P HP. now inversion HP.
    + destruct (removeBlock q rest) as [[len0 rest']|]; [|discriminate].
      intros [= <- <-]. destruct (IH rest' eq_refl) as (Hin & Hcov & HP).
      split; [now right|]. split.
      * intros w. cbn [map coverCount]. rewrite Hcov. lia.
      * intros P HF. inversion HF; subst. constructor; auto.
Qed.

Lemma removeBlock_insertBlock b l :
  removeBlock (Block.offset b) (insertBlock b l)
  = Some (Block.length b, l).
Proof.
  induction l as [|x rest IH]; cbn [insertBlock removeBlock].
  - now rewrite Z.eqb_refl.
  - destruct (Z.ltb_spec (Block.offset x) (Block.offset b)) as [Hlt|Hge];
      cbn [removeBlock].
    + destruct (Z.eqb_spec (Block.offset x) (Block.offset b)); [lia|].
      now rewrite IH.
    + now rewrite Z.eqb_refl.
Qed.

Lemma mergeHoles_chain holes lo hi :
  holeChain 0 lo hi holes -> 0 <= lo -> hi < 2 ^ 32 ->
  holeChain 1 (lo - 1) hi (mergeHoles holes) /\
  forall w, coverCount w (map holeExtent (mergeHoles holes))
            = coverCount w (map holeExtent holes).
Proof.
  destruct holes as [|h rest]; intros Hc Hlo Hhi.
  - cbn in *. split; [lia|reflexivity].
  - now apply mergeFrom_chain.
Qed.

Lemma insertBlock_Forall (P : Block.t -> Prop) b l :
  P b -> Forall P l -> Forall P (insertBlock b l).
Proof.
  intros Hb. induction 1 as [|x l Hx Hl IH]; cbn [insertBlock].
  - now constructor.
  - destruct (Block.offset x <? Block.offset b); repeat constructor;
      assumption.
Qed.

(** ** The two strategies conform *)

Lemma fitLoop_conforming better init :
  (forall a b c, better a b = true -> better b c = true -> better a c = true) ->
  (forall a b, better a b = true -> better b a = false) ->
  fst init = -1 ->
  (forall len, 0 <= len < 2 ^ 16 -> better len (snd init) = true) ->
  conforming (fun sizeInWords list => fitLoop better sizeInWords list init).
Proof.
  intros Htrans Hasym Hfst Hinit holes req [Hlen Hok].
  rewrite fitLoop_encodeHoles by assumption.
  destruct init as [bo bl]. cbn [fst snd] in *. subst bo.
  destruct (fold_pickHole better req Htrans Hasym holes (-1) bl Hok)
    as [[Hr _]|(i & h & Hi & Hr & Hh & _ & _)]; rewrite Hr; cbn [fst].
  - now left.
  - right. exists h. split; [|split; [reflexivity|assumption]].
    now apply nth_error_In in Hi.
Qed.

Lemma bestFit_conforming : conforming bestFit.
Proof.
  apply fitLoop_conforming.
  - intros a b c. rewrite !Z.ltb_lt. lia.
  - intros a b. rewrite Z.ltb_lt, Z.ltb_ge. lia.
  - reflexivity.
  - intros len Hlen. cbn [snd]. apply Z.ltb_lt. unfold MAX_NUM_WORDS. lia.
Qed.

Lemma worstFit_conforming : conforming worstFit.
Proof.
  apply fitLoop_conforming.
  - intros a b c. rewrite !Z.gtb_ltb, !Z.ltb_lt. lia.
  - intros a b. rewrite !Z.gtb_ltb, Z.ltb_lt, Z.ltb_ge. lia.
  - reflexivity.
  - intros len Hlen. cbn [snd]. rewrite Z.gtb_ltb. apply Z.ltb_lt. lia.
Qed.

(** ** The word count of a request in range *)

Lemma wordsFor_in_range m sizeInBytes :
  0 < wordSize m -> requestInRange m sizeInBytes ->
  wordsFor m sizeInBytes = (sizeInBytes + wordSize m - 1) / wordSize m /\
  s32 (wordsFor m sizeInBytes) = wordsFor m sizeInBytes /\
  0 <= wordsFor m sizeInBytes < 2 ^ 31 /\
  (sizeInBytes <> 0 -> 0 < wordsFor m sizeInBytes).
Proof.
  intros Hws (Hn & Hsum & Hq). unfold wordsFor.
  rewrite u64_small by lia.
  pose proof (Z.div_pos (sizeInBytes + wordSize m - 1) (wordSize m)
                ltac:(lia) Hws) as Hq0.
  rewrite u32_small by lia.
  split; [reflexivity|]. split; [apply s32_small; lia|]. split; [lia|].
  intros Hnz.
  apply Z.div_str_pos. lia.
Qed.

(* ================================================================= *)
(** ** [allocate] on a well-formed manager, request in range *)

(** Either nothing is allocated and the manager is unchanged, or the
    strategy has chosen a hole [h] that is large enough and the low end of
    [h] has become the new allocation. *)
Lemma allocate_in_range m sizeInBytes :
  wellFormed m -> requestInRange m sizeInBytes ->
  let req := (sizeInBytes + wordSize m - 1) / wordSize m in
  allocate sizeInBytes m = (nullptr, m)
  \/
  exists h holes',
    memoryStart m <> nullptr /\
    In h (holeList m) /\ 0 < req <= Hole.length h /\
    allocator m req (encodeHoles (holeList m)) = Hole.offset h /\
    takeFromHole (Hole.offset h) req (holeList m) = Some holes' /\
    holeChain 1 (-1) (capacityWords m) holes' /\
    (forall w, coverCount w (map holeExtent (holeList m))
               = (covers w (Hole.offset h, req)
                  + coverCount w (map holeExtent holes'))%nat) /\
    allocate sizeInBytes m
    = (memoryStart m + u32 (Hole.offset h * wordSize m),
       mkMemoryManager (wordSize m) (memoryStart m) (memoryLimit m)
         (allocator m) holes'
         (insertBlock (Block.mk (Hole.offset h) req) (allocatedList m))).
Proof.
  intros Hwf Hreq req.
  destruct Hwf as [Hws Hstart Hlim Hcap Hblocks Hholes Htiles Hstrat].
  destruct (wordsFor_in_range m sizeInBytes ltac:(lia) Hreq)
    as (Hwords & Hs32 & Hrange & Hpos).
  fold req in Hwords.
  unfold allocate.
  destruct (Z.eqb_spec (memoryStart m) nullptr) as [|Hlive]; [now left|].
  destruct (Z.eqb_spec sizeInBytes 0) as [|Hnz]; [now left|].
  cbn [orb]. unfold getList.
  destruct (holeList m) as [|h0 rest] eqn:Hlist; [now left|].
  rewrite <- Hlist in *. rewrite Hs32, Hwords.
  pose proof (holeChain_fitsSnapshot _ _ (proj2 Hcap) Hholes) as Hfits.
  destruct (Hstrat (holeList m) req Hfits) as [Hno|(h & Hin & Ho & Hlen)].
  - rewrite Hno. now left.
  - right. rewrite Ho.
    destruct (holeChain_In 1 _ _ _ h ltac:(lia) Hholes Hin)
      as (Hh1 & Hh2 & Hh3).
    unfold MAX_NUM_WORDS in Hcap.
    destruct (Z.eqb_spec (Hole.offset h) (-1)) as [|_]; [lia|].
    rewrite u32_small by lia.
    specialize (Hpos Hnz). rewrite Hwords in Hpos.
    destruct (takeFromHole_chain (holeList m) (-1) (capacityWords m) h req
                Hholes Hin ltac:(lia) ltac:(lia) ltac:(lia))
      as (holes' & Htake & Hchain & Hcov).
    exists h, holes'. rewrite Htake.
    repeat split; try assumption; lia.
Qed.

Lemma allocate_wellFormed m sizeInBytes :
  wellFormed m -> requestInRange m sizeInBytes ->
  wellFormed (snd (allocate sizeInBytes m)).
Proof.
  intros Hwf Hreq.
  destruct (allocate_in_range m sizeInBytes Hwf Hreq)
    as [->|(h & holes' & _ & Hin & Hlen & _ & _ & Hchain & Hcov & ->)];
    [assumption|].
  destruct Hwf as [Hws Hstart Hlim Hcap Hblocks Hholes Htiles Hstrat].
  cbn [snd]. constructor; cbn; try assumption.
  - apply insertBlock_Forall; [cbn; lia | assumption].
  - intros w. specialize (Htiles w). unfold extents in *. cbn.
    rewrite coverCount_app in *. rewrite coverCount_insertBlock.
    cbn [coverCount]. unfold blockExtent at 1. cbn [Block.offset Block.length].
    rewrite Hcov in Htiles.
    unfold capacityWords in *. cbn [memoryLimit wordSize]. lia.
Qed.

(* ================================================================= *)
(** ** [free] on a well-formed manager *)

(** Either nothing is freed and the manager is unchanged, or an
    allocation at the computed word offset has become a hole and the holes
    have been coalesced. *)
Lemma free_wellFormed_result m address :
  wellFormed m ->
  free address m = m
  \/
  exists len blocks',
    removeBlock (wordOffsetOf m address) (allocatedList m)
      = Some (len, blocks') /\
    0 < len /\
    free address m
    = mkMemoryManager (wordSize m) (memoryStart m) (memoryLimit m)
        (allocator m)
        (mergeHoles (insertHole (Hole.mk (wordOffsetOf m address) len)
                                (holeList m)))
        blocks'.
Proof.
  intros Hwf. unfold free.
  destruct ((memoryStart m =? nullptr) || (address =? nullptr));
    [now left|].
  destruct (removeBlock (wordOffsetOf m address) (allocatedList m))
    as [[len blocks']|] eqn:Hrem; [|now left].
  right. exists len, blocks'.
  destruct (removeBlock_Some _ _ _ _ Hrem) as (Hin & _ & _).
  pose proof (wf_blocks m Hwf) as Hpos.
  rewrite Forall_forall in Hpos. specialize (Hpos _ Hin). cbn in Hpos.
  destruct (Z.eqb_spec len 0); [lia|]. repeat split. assumption.
Qed.

Lemma free_wellFormed m address :
  wellFormed m -> wellFormed (free address m).
Proof.
  intros Hwf.
  destruct (free_wellFormed_result m address Hwf)
    as [->|(len & blocks' & Hrem & Hlen & ->)]; [assumption|].
  set (q := wordOffsetOf m address) in *.
  destruct (removeBlock_Some _ _ _ _ Hrem) as (Hin & Hcov & HP).
  destruct Hwf as [Hws Hstart Hlim Hcap Hblocks Hholes Htiles Hstrat].
  destruct (tiles_extent_range m (q, len) Htiles) as [Hq1 Hq2].
  { unfold extents. apply in_or_app. right.
    now apply (in_map blockExtent) in Hin. }
  { cbn. lia. }
  cbn [fst snd] in Hq1, Hq2. unfold MAX_NUM_WORDS in Hcap.
  assert (Hins : holeChain 0 0 (capacityWords m)
                   (insertHole (Hole.mk q len) (holeList m))).
  { apply insertHole_chain; cbn [Hole.offset Hole.length]; try lia.
    - apply holeChain_weaken with (gap := 1) (lo := -1); try lia.
      assumption.
    - intros h w Hh Hwh Hwb.
      apply (tiles_hole_block_disjoint m h (Block.mk q len) w); assumption. }
  destruct (mergeHoles_chain _ _ _ Hins ltac:(lia) ltac:(lia))
    as [Hmerged Hmcov].
  constructor; cbn; try assumption.
  - now apply HP.
  - intros w. specialize (Htiles w). unfold extents in *. cbn.
    rewrite coverCount_app in *. rewrite Hmcov, coverCount_insertHole.
    cbn [coverCount]. unfold holeExtent at 1. cbn [Hole.offset Hole.length].
    rewrite Hcov in Htiles.
    unfold capacityWords in *. cbn [memoryLimit wordSize]. lia.
Qed.

(* ================================================================= *)
(** ** The lifecycle calls *)

Lemma empty_ledgers_wellFormed ws start limit s :
  0 < ws < 2 ^ 32 -> 0 <= start -> limit = 0 -> conforming s ->
  wellFormed (mkMemoryManager ws start limit s [] []).
Proof.
  intros Hws Hstart -> Hs.
  constructor; cbn; unfold capacityWords, MAX_NUM_WORDS; cbn;
    try assumption; try lia.
  - constructor.
  - intros w. unfold capacityWords, extents. cbn.
    destruct (Z.leb_spec 0 w), (Z.ltb_spec w 0); cbn; lia.
Qed.

Lemma construct_wellFormed ws s :
  0 < ws < 2 ^ 32 -> conforming s -> wellFormed (construct ws s).
Proof.
  intros. apply empty_ledgers_wellFormed; auto. unfold nullptr. lia.
Qed.

Lemma shutdown_wellFormed m : wellFormed m -> wellFormed (shutdown m).
Proof.
  intros [Hws Hstart Hlim Hcap Hblocks Hholes Htiles Hstrat].
  unfold shutdown.
  destruct (Z.eqb_spec (memoryStart m) nullptr) as [Hnull|Hlive]; cbn [negb].
  - apply empty_ledgers_wellFormed; auto.
  - apply empty_ledgers_wellFormed; auto. unfold nullptr. lia.
Qed.

Lemma setAllocator_wellFormed s m :
  conforming s -> wellFormed m -> wellFormed (setAllocator s m).
Proof.
  intros Hs [Hws Hstart Hlim Hcap Hblocks Hholes Htiles Hstrat].
  constructor; assumption.
Qed.

Lemma initialize_wellFormed mmap sizeInWords m :
  posixLike mmap -> 0 <= sizeInWords < 2 ^ 64 ->
  wellFormed m -> wellFormed (fst (initialize mmap sizeInWords m)).
Proof.
  intros [Hzero Hptr] Hsize Hwf.
  assert (Hwf1 : wellFormed
                   (if memoryStart m =? nullptr then m else shutdown m)).
  { destruct (memoryStart m =? nullptr);
      [assumption | now apply shutdown_wellFormed]. }
  assert (Hdead : memoryStart
                    (if memoryStart m =? nullptr then m else shutdown m)
                  = nullptr).
  { destruct (Z.eqb_spec (memoryStart m) nullptr) as [|Hlive];
      [assumption|].
    cbn. now destruct (Z.eqb_spec (memoryStart m) nullptr). }
  unfold initialize.
  set (m1 := if memoryStart m =? nullptr then m else shutdown m) in *.
  destruct (Z.gtb_spec sizeInWords MAX_NUM_WORDS) as [Hbig|Hsmall];
    [assumption|].
  destruct Hwf1 as [Hws Hstart Hlim Hcap Hblocks Hholes Htiles Hstrat].
  unfold MAX_NUM_WORDS in *.
  assert (Hlimit : u64 (sizeInWords * wordSize m1)
                   = sizeInWords * wordSize m1)
    by (apply u64_small; nia).
  rewrite Hlimit.
  destruct (Z.eqb_spec (mmap (sizeInWords * wordSize m1)) MAP_FAILED)
    as [Hfail|Hok]; cbn [fst].
  - specialize (Hlim Hdead).
    unfold capacityWords in *. rewrite Hlim in *.
    constructor; cbn; unfold capacityWords; cbn; try assumption;
      try (unfold nullptr; lia); try reflexivity.
    intros w. specialize (Htiles w). unfold extents in *. cbn.
    unfold capacityWords in Htiles. now rewrite Hlim in Htiles.
  - assert (Hn : 0 < sizeInWords).
    { destruct (Z.eq_dec sizeInWords 0) as [->|]; [|lia].
      rewrite Z.mul_0_l in Hok. contradiction. }
    rewrite u32_small by lia.
    assert (Hc : sizeInWords * wordSize m1 / wordSize m1 = sizeInWords)
      by (apply Z.div_mul; lia).
    constructor; cbn; unfold capacityWords; cbn; rewrite ?Hc;
      try assumption; try lia.
    + specialize (Hptr (sizeInWords * wordSize m1)). lia.
    + specialize (Hptr (sizeInWords * wordSize m1)). unfold nullptr. lia.
    + unfold MAX_NUM_WORDS. lia.
    + constructor.
    + intros w. unfold extents, capacityWords, covers, inExtent. cbn.
      rewrite Hc, Nat.add_0_r. reflexivity.
Qed.

(* ================================================================= *)
(** ** Every manager reached by calls in range is well formed *)

Lemma perform_wellFormed m c :
  wellFormed m -> callInRange m c -> wellFormed (perform c m).
Proof.
  intros Hwf Hc. destruct c as [mmap n| |n|a|s]; cbn in *.
  - destruct Hc. now apply initialize_wellFormed.
  - now apply shutdown_wellFormed.
  - now apply allocate_wellFormed.
  - now apply free_wellFormed.
  - now apply setAllocator_wellFormed.
Qed.

Lemma reachableInRange_wellFormed m : reachableInRange m -> wellFormed m.
Proof.
  induction 1 as [ws s Hws Hs | m c _ IH Hc].
  - now apply construct_wellFormed.
  - now apply perform_wellFormed.
Qed.

(** X10. The tiling invariant, for requests in range: after any sequence
    of calls in range the two ledgers tile [[0, capacityWords)]. *)
Theorem tiling_when_requests_in_range m :
  reachableInRange m -> tiles m.
Proof. intros H. apply wf_tiles. now apply reachableInRange_wellFormed. Qed.

(** X11. No adjacency, for requests in range: after any sequence of calls
    in range, and so after any [free] among them, no two holes touch. *)
Theorem no_adjacent_holes_when_requests_in_range m :
  reachableInRange m -> noAdjacentHoles (holeList m).
Proof.
  intros H. apply reachableInRange_wellFormed in H.
  eapply holeChain_noAdjacentHoles. apply (wf_holes m H).
Qed.

(* ================================================================= *)
(** ** Allocate, then free *)

(** In a chain with gaps the chosen hole is the first at its offset:
    the ledger splits around it. *)
Lemma takeFromHole_split holes :
  forall lo hi h req,
    holeChain 1 lo hi holes -> In h holes ->
    exists pre post,
      holes = pre ++ h :: post /\
      takeFromHole (Hole.offset h) req holes
      = Some (pre ++ (if Hole.length h =? req then post
                      else Hole.mk (u32 (Hole.offset h + req))
                                   (u32 (Hole.length h - req)) :: post)).
Proof.
  induction holes as [|x rest IH]; intros lo hi h req Hc Hin.
  - destruct Hin.
  - cbn [holeChain] in Hc. destruct Hc as (Hx1 & Hx2 & Hx3).
    cbn [takeFromHole].
    destruct (Z.eqb_spec (Hole.offset x) (Hole.offset h)) as [Heq|Hne].
    + assert (x = h) as ->.
      { destruct Hin as [E|Hin]; [assumption|].
        destruct (holeChain_In 1 _ _ _ h ltac:(lia) Hx3 Hin). lia. }
      now exists [], rest.
    + destruct Hin as [E|Hin]; [congruence|].
      destruct (IH _ hi h req Hx3 Hin) as (pre & post & -> & ->).
      now exists (x :: pre), post.
Qed.

(** Putting the taken words back and coalescing gives the chain back. *)
Lemma mergeHoles_insertHole_takeFromHole holes :
  forall lo hi h req holes',
    holeChain 1 lo hi holes -> In h holes ->
    0 < req <= Hole.length h -> 0 <= lo + 1 -> hi < 2 ^ 32 ->
    takeFromHole (Hole.offset h) req holes = Some holes' ->
    mergeHoles (insertHole (Hole.mk (Hole.offset h) req) holes') = holes.
Proof.
  induction holes as [|x rest IH];
    intros lo hi h req holes' Hc Hin Hreq Hlo Hhi Htake.
  - destruct Hin.
  - pose proof Hc as Hcx.
    cbn [holeChain] in Hc. destruct Hc as (Hx1 & Hx2 & Hx3).
    pose proof (holeChain_bounds 1 _ _ _ ltac:(lia) Hx3) as Hend.
    cbn [takeFromHole] in Htake.
    destruct (Z.eqb_spec (Hole.offset x) (Hole.offset h)) as [Heq|Hne].
    + assert (x = h) as ->.
      { destruct Hin as [E|Hin]; [assumption|].
        destruct (holeChain_In 1 _ _ _ h ltac:(lia) Hx3 Hin). lia. }
      assert (Hhead : insertHole (Hole.mk (Hole.offset h) req) rest
                      = Hole.mk (Hole.offset h) req :: rest).
      { destruct rest as [|y r]; [reflexivity|].
        cbn [insertHole Hole.offset]. cbn [holeChain] in Hx3.
        destruct (Z.ltb_spec (Hole.offset y) (Hole.offset h));
          [lia|reflexivity]. }
      destruct (Z.eqb_spec (Hole.length h) req) as [Hex|Hpart];
        injection Htake as <-.
      * rewrite Hhead. cbn [mergeHoles]. subst req.
        replace (Hole.mk (Hole.offset h) (Hole.length h)) with h
          by now destruct h.
        now apply mergeFrom_apart with (lo := lo) (hi := hi).
      * rewrite !u32_small by lia.
        cbn [insertHole Hole.offset].
        destruct (Z.ltb_spec (Hole.offset h + req) (Hole.offset h));
          [lia|].
        cbn [mergeHoles mergeFrom Hole.offset Hole.length].
        rewrite u32_small by lia. rewrite Z.eqb_refl.
        rewrite u32_small by lia.
        replace (req + (Hole.length h - req)) with (Hole.length h) by lia.
        replace (Hole.mk (Hole.offset h) (Hole.length h)) with h
          by now destruct h.
        now apply mergeFrom_apart with (lo := lo) (hi := hi).
    + destruct Hin as [E|Hin]; [congruence|].
      destruct (takeFromHole (Hole.offset h) req rest) as [holes''|] eqn:Hrest;
        [|discriminate].
      injection Htake as <-.
      destruct (holeChain_In 1 _ _ _ h ltac:(lia) Hx3 Hin) as (Hh1 & _ & _).
      destruct (takeFromHole_chain rest _ hi h req Hx3 Hin Hreq
                  ltac:(lia) Hhi) as (l & Hl & Hchain & _).
      rewrite Hrest in Hl. injection Hl as <-.
      specialize (IH _ hi h req holes'' Hx3 Hin Hreq ltac:(lia) Hhi Hrest).
      cbn [insertHole Hole.offset].
      destruct (Z.ltb_spec (Hole.offset x) (Hole.offset h)); [|lia].
      cbn [mergeHoles].
      destruct (insertHole (Hole.mk (Hole.offset h) req) holes'')
        as [|y r] eqn:Hins.
      { cbn in IH. subst rest. destruct Hin. }
      assert (Hy : Hole.offset x + Hole.length x < Hole.offset y).
      { destruct holes'' as [|z r']; cbn [insertHole Hole.offset] in Hins.
        - injection Hins as <- <-. cbn. lia.
        - cbn [holeChain] in Hchain.
          destruct (Hole.offset z <? Hole.offset h);
            injection Hins as <- <-; cbn; lia. }
      cbn [mergeFrom]. rewrite u32_small by lia.
      destruct (Z.eqb_spec (Hole.offset x + Hole.length x) (Hole.offset y));
        [lia|].
      f_equal. exact IH.
Qed.

(** The byte offset of a hole fits the 32-bit product of [allocate] when
    the arena is no larger than 2^32 bytes. *)
Lemma hole_byte_offset_fits m h :
  wellFormed m -> memoryLimit m <= 2 ^ 32 -> In h (holeList m) ->
  0 <= Hole.offset h * wordSize m < 2 ^ 32 /\
  0 <= Hole.offset h < 2 ^ 16.
Proof.
  intros Hwf Hlim Hin.
  destruct Hwf as [Hws Hstart _ Hcap _ Hholes _ _].
  destruct (holeChain_In 1 _ _ _ h ltac:(lia) Hholes Hin) as (H1 & H2 & H3).
  unfold capacityWords, MAX_NUM_WORDS in *.
  pose proof (Z.mul_div_le (memoryLimit m) (wordSize m) ltac:(lia)).
  split; [nia|lia].
Qed.

(** X20. The round trip, for a request in range in an arena of at most
    2^32 bytes: [free] of the address [allocate] has just returned
    restores the Hole Ledger. *)
Theorem allocate_free_round_trip_in_range m sizeInBytes :
  wellFormed m -> requestInRange m sizeInBytes ->
  memoryLimit m <= 2 ^ 32 ->
  fst (allocate sizeInBytes m) <> nullptr ->
  holeList (free (fst (allocate sizeInBytes m))
                 (snd (allocate sizeInBytes m)))
  = holeList m.
Proof.
  intros Hwf Hreq Hlim Hnn.
  destruct (allocate_in_range m sizeInBytes Hwf Hreq)
    as [E|(h & holes' & Hlive & Hin & Hlen & _ & Htake & _ & _ & E)];
    rewrite E in *; cbn [fst snd] in *; [contradiction|].
  destruct (hole_byte_offset_fits m h Hwf Hlim Hin) as [Hbyte Hoff].
  pose proof (wf_wordSize m Hwf) as Hws.
  rewrite u32_small in * by assumption.
  unfold free. cbn [memoryStart allocatedList holeList wordSize].
  destruct (Z.eqb_spec (memoryStart m) nullptr); [contradiction|].
  destruct (Z.eqb_spec (memoryStart m + Hole.offset h * wordSize m) nullptr);
    [contradiction|].
  cbn [orb]. unfold wordOffsetOf. cbn [memoryStart wordSize].
  replace (memoryStart m + Hole.offset h * wordSize m - memoryStart m)
    with (Hole.offset h * wordSize m) by lia.
  rewrite u64_small by lia. rewrite Z.div_mul by lia.
  rewrite u32_small by lia.
  set (req := (sizeInBytes + wordSize m - 1) / wordSize m) in *.
  pose proof (removeBlock_insertBlock (Block.mk (Hole.offset h) req)
                                      (allocatedList m)) as Hrem.
  cbn [Block.offset Block.length] in Hrem. rewrite Hrem.
  destruct (Z.eqb_spec req 0); [lia|]. cbn [holeList].
  pose proof (wf_capacity m Hwf) as Hcap. unfold MAX_NUM_WORDS in Hcap.
  apply (mergeHoles_insertHole_takeFromHole _ (-1) (capacityWords m));
    try assumption; try lia.
  apply (wf_holes m Hwf).
Qed.

(** X15. [allocate], for a request in range in an arena of at most 2^32
    bytes, when it allocates: the word count is the ceiling of
    [sizeInBytes / wordSize]; the hole the strategy chose is removed on an
    exact fit and otherwise loses its low end; the allocation is inserted
    by [insertBlock]; the address is [memoryStart + offset * wordSize]. *)
Theorem allocate_low_end_in_range m sizeInBytes :
  wellFormed m -> requestInRange m sizeInBytes ->
  memoryLimit m <= 2 ^ 32 ->
  fst (allocate sizeInBytes m) <> nullptr ->
  let req := (sizeInBytes + wordSize m - 1) / wordSize m in
  (req - 1) * wordSize m < sizeInBytes <= req * wordSize m /\
  exists h pre post,
    holeList m = pre ++ h :: post /\
    allocator m req (encodeHoles (holeList m)) = Hole.offset h /\
    req <= Hole.length h /\
    fst (allocate sizeInBytes m)
      = memoryStart m + Hole.offset h * wordSize m /\
    holeList (snd (allocate sizeInBytes m))
      = pre ++ (if Hole.length h =? req then post
                else Hole.mk (Hole.offset h + req)
                             (Hole.length h - req) :: post) /\
    allocatedList (snd (allocate sizeInBytes m))
      = insertBlock (Block.mk (Hole.offset h) req) (allocatedList m).
Proof.
  intros Hwf Hreq Hlim Hnn req.
  pose proof (wf_wordSize m Hwf) as Hws.
  destruct (allocate_in_range m sizeInBytes Hwf Hreq)
    as [E|(h & holes' & Hlive & Hin & Hlen & Ho & Htake & _ & _ & E)];
    rewrite E in *; cbn [fst snd] in *; [contradiction|].
  fold req in Hlen, Ho, Htake.
  split.
  - pose proof (Z.div_mod (sizeInBytes + wordSize m - 1) (wordSize m)
                  ltac:(lia)) as Hdm.
    pose proof (Z.mod_pos_bound (sizeInBytes + wordSize m - 1) (wordSize m)
                  ltac:(lia)) as Hr.
    fold req in Hdm. nia.
  - destruct (hole_byte_offset_fits m h Hwf Hlim Hin) as [Hbyte Hoff].
    destruct (takeFromHole_split (holeList m) _ _ h req (wf_holes m Hwf) Hin)
      as (pre & post & Hsplit & Htake').
    rewrite Htake in Htake'. injection Htake' as ->.
    exists h, pre, post.
    pose proof (wf_capacity m Hwf) as Hcap. unfold MAX_NUM_WORDS in Hcap.
    destruct (holeChain_In 1 _ _ _ h ltac:(lia) (wf_holes m Hwf) Hin)
      as (H1 & H2 & H3).
    rewrite !u32_small by lia.
    repeat split; try assumption; lia.
Qed.

(* ================================================================= *)
(** ** The dump when the writes are complete, and its status *)

Lemma string_append_assoc (a b c : string) :
  ((a ++ b) ++ c = a ++ (b ++ c))%string.
Proof. induction a as [|x a IH]; cbn; [reflexivity | now rewrite IH]. Qed.

Lemma substring_all (s : string) : substring 0 (String.length s) s = s.
Proof. induction s as [|x s IH]; cbn; [reflexivity | now rewrite IH]. Qed.

Lemma written_complete data :
  written data (Z.of_nat (String.length data)) = data.
Proof. unfold written. rewrite Nat2Z.id. apply substring_all. Qed.

Lemma dumpLoop_complete fs :
  writesComplete fs ->
  forall holes k file,
    dumpLoop fs k file holes = (true, (file ++ renderHoles holes)%string).
Proof.
  intros Hfs. induction holes as [|h rest IH]; intros k file.
  - cbn. f_equal. induction file as [|x f IHf]; cbn; congruence.
  - cbn [dumpLoop]. rewrite !Hfs.
    destruct (Z.eqb_spec (Z.of_nat (String.length (holeEntry h))) (-1));
      [lia|].
    rewrite !written_complete.
    destruct rest as [|h' rest'].
    + reflexivity.
    + rewrite IH. cbn [renderHoles]. f_equal.
      now rewrite !string_append_assoc.
Qed.

(** X25. With a file system whose calls all succeed and whose writes
    are complete, [dumpMemoryMap] returns 0 and the file holds the entries of
    the Hole Ledger in list order with [" - "] between them, whatever it
    held before. *)
Theorem dumpMemoryMap_complete fs filename before m :
  fs_open fs filename <> -1 -> writesComplete fs -> fs_close fs <> -1 ->
  dumpMemoryMap fs filename before m = (0, Some (renderHoles (holeList m))).
Proof.
  intros Hopen Hw Hclose. unfold dumpMemoryMap.
  destruct (Z.eqb_spec (fs_open fs filename) (-1)); [contradiction|].
  rewrite dumpLoop_complete by assumption. cbn [negb].
  destruct (Z.eqb_spec (fs_close fs) (-1)); [contradiction|].
  reflexivity.
Qed.

Lemma dumpLoop_status fs :
  forall holes k file,
    fst (dumpLoop fs k file holes) = true
    <-> forall i h, nth_error holes i = Some h ->
          fs_write fs (k + 2 * i) (holeEntry h) <> -1.
Proof.
  induction holes as [|x rest IH]; intros k file.
  - cbn. split; [intros _ [|i] h; discriminate | reflexivity].
  - cbn [dumpLoop].
    destruct (Z.eqb_spec (fs_write fs k (holeEntry x)) (-1)) as [Hbad|Hok].
    + cbn [fst]. split; [discriminate|]. intros H.
      specialize (H 0%nat x eq_refl). rewrite Nat.add_0_r in H.
      contradiction.
    + destruct rest as [|y rest'].
      * cbn. split; [|reflexivity]. intros _ [|[|i]] h; cbn; try discriminate.
        intros [= <-]. now rewrite Nat.add_0_r.
      * rewrite IH. split.
        -- intros H [|i] h Hi.
           ++ injection Hi as <-. now rewrite Nat.add_0_r.
           ++ cbn [nth_error] in Hi. specialize (H i h Hi).
              now replace (k + 2 * S i)%nat with (S (S k) + 2 * i)%nat
                by lia.
        -- intros H i h Hi. specialize (H (S i) h Hi).
           now replace (k + 2 * S i)%nat with (S (S k) + 2 * i)%nat
             in H by lia.
Qed.

(** X26. The status of [dumpMemoryMap] is 0 or -1, and it is 0 exactly when
    [open] succeeds, no write of an entry fails and [close] succeeds: the
    writes of the delimiter do not count. A failed [open] leaves the file
    as it was. *)
Theorem dumpMemoryMap_status fs filename before m :
  (fst (dumpMemoryMap fs filename before m) = 0 \/
   fst (dumpMemoryMap fs filename before m) = -1) /\
  (fst (dumpMemoryMap fs filename before m) = 0
   <-> fs_open fs filename <> -1 /\
       entryWritesSucceed fs (holeList m) /\
       fs_close fs <> -1) /\
  (fs_open fs filename = -1 ->
   snd (dumpMemoryMap fs filename before m) = before).
Proof.
  unfold dumpMemoryMap, entryWritesSucceed.
  pose proof (dumpLoop_status fs (holeList m) 0 EmptyString) as Hloop.
  cbn [Nat.add] in Hloop.
  destruct (Z.eqb_spec (fs_open fs filename) (-1)) as [Hopen|Hopen].
  { cbn [fst snd]. repeat split; auto; try discriminate.
    intros (H & _). contradiction. }
  destruct (dumpLoop fs 0 EmptyString (holeList m)) as [ok file].
  cbn [fst] in Hloop.
  destruct ok; cbn [negb].
  - destruct (Z.eqb_spec (fs_close fs) (-1)) as [Hclose|Hclose];
      cbn [fst snd].
    + repeat split; auto; try discriminate; try contradiction.
      intros (_ & _ & H). contradiction.
    + repeat split; auto; try contradiction.
      now apply Hloop.
  - cbn [fst snd]. repeat split; auto; try discriminate; try contradiction.
    intros (_ & H & _). apply Hloop in H. discriminate.
Qed.

(* ================================================================= *)
(** ** The order of the Allocation Ledger *)

Lemma insertBlock_HdRel a b l :
  blockBefore a b -> HdRel blockBefore a l ->
  HdRel blockBefore a (insertBlock b l).
Proof.
  intros Hab Hl. destruct l as [|x l]; cbn [insertBlock].
  - now constructor.
  - inversion Hl; subst.
    destruct (Block.offset x <? Block.offset b); now constructor.
Qed.

(** [insertBlock] keeps a ledger that is in offset order in offset
    order. *)
Lemma insertBlock_Sorted b l :
  Sorted blockBefore l -> Sorted blockBefore (insertBlock b l).
Proof.
  induction 1 as [|x l Hl IH Hx]; cbn [insertBlock].
  - repeat constructor.
  - destruct (Z.ltb_spec (Block.offset x) (Block.offset b)) as [Hlt|Hge].
    + constructor; [assumption|].
      apply insertBlock_HdRel; [unfold blockBefore; lia | assumption].
    + constructor; [now constructor|]. constructor. assumption.
Qed.

(* ================================================================= *)
(** ** The run of the demonstration program on coalescing *)

(** Three 8-word allocations side by side; the first and the third are
    freed, then the second: the holes merge into the whole arena. *)
Example demo_coalescing :
  let m1 := snd (allocate 64 demoArena) in
  let m2 := snd (allocate 64 m1) in
  let m3 := snd (allocate 64 m2) in
  let c1 := fst (allocate 64 demoArena) in
  let c2 := fst (allocate 64 m1) in
  let c3 := fst (allocate 64 m2) in
  (c1, c2, c3) = (4096, 4160, 4224) /\
  holeList m3 = [Hole.mk 24 8] /\
  holeList (free c1 m3) = [Hole.mk 0 8; Hole.mk 24 8] /\
  holeList (free c3 (free c1 m3)) = [Hole.mk 0 8; Hole.mk 16 16] /\
  holeList (free c2 (free c3 (free c1 m3))) = [Hole.mk 0 32] /\
  allocatedList (free c2 (free c3 (free c1 m3))) = [].
Proof. evaluate. Qed.

(** The managers of the concrete runs are reached by calls in range. *)
Lemma demoArena_reachable : reachableInRange demoArena.
Proof.
  apply (reach_call _ (Initialize (posix_mmap 4096) 32)).
  - apply reach_construct; [lia | exact bestFit_conforming].
  - cbn. split; [|lia]. split; [reflexivity|].
    intros len. unfold posix_mmap, MAP_FAILED.
    destruct (len =? 0); lia.
Qed.

(* ================================================================= *)
(** ** An arena larger than 2^32 bytes *)

(** [allocate] multiplies the word offset by the word size in 32 bits.
    With words of 2^31 bytes the third one-word allocation, at word
    offset 2, gets the address of the first; [free] of that address then
    frees the first allocation, and the Hole Ledger is not the one from
    before the third call. *)
Example allocate_address_wraps_in_large_arena :
  let m1 := snd (allocate 1 hugeWordArena) in
  let m2 := snd (allocate 1 m1) in
  let m3 := snd (allocate 1 m2) in
  memoryLimit hugeWordArena = 2 ^ 33 /\
  fst (allocate 1 hugeWordArena) = 2 ^ 40 /\
  fst (allocate 1 m2) = 2 ^ 40 /\
  allocatedList m3 = [Block.mk 0 1; Block.mk 1 1; Block.mk 2 1] /\
  holeList m2 = [Hole.mk 2 2] /\
  holeList (free (fst (allocate 1 m2)) m3) = [Hole.mk 0 1; Hole.mk 3 1] /\
  allocatedList (free (fst (allocate 1 m2)) m3)
    = [Block.mk 1 1; Block.mk 2 1].
Proof. evaluate. Qed.

(* ================================================================= *)
(** * The occupancy bitmap *)

(** ** Writing one bit *)

Lemma store_in_bounds bytes :
  forall index value,
    (index < List.length bytes)%nat ->
    exists bytes',
      store index value bytes = Some bytes' /\
      List.length bytes' = List.length bytes /\
      forall j, nth j bytes' 0
                = if Nat.eqb j index then value else nth j bytes 0.
Proof.
  induction bytes as [|b rest IH]; intros index value Hlt; cbn in Hlt.
  - lia.
  - destruct index as [|i]; cbn [store].
    + eexists. split; [reflexivity|]. split; [reflexivity|].
      intros [|j]; reflexivity.
    + destruct (IH i value ltac:(lia)) as (rest' & -> & Hlen & Hnth).
      cbn [option_map]. eexists. split; [reflexivity|].
      split; [cbn; lia|]. intros [|j]; [reflexivity|]. cbn. apply Hnth.
Qed.

Lemma testbit_set_bit byte k i :
  0 <= k < 8 -> 0 <= i < 8 ->
  Z.testbit (u8 (Z.lor byte (Z.shiftl 1 k))) i
  = (i =? k) || Z.testbit byte i.
Proof.
  intros Hk Hi. unfold u8.
  rewrite Z.mod_pow2_bits_low by lia.
  rewrite Z.lor_spec, Z.shiftl_1_l, Z.pow2_bits_eqb by lia.
  rewrite (Z.eqb_sym k i). apply orb_comm.
Qed.

(** Setting the bit of word [w0] inside the array: the array keeps its
    length and its two header bytes, and the bit field gains bit [w0]. *)
Lemma setBit_in_bounds bitmap w0 :
  0 <= w0 ->
  (Z.to_nat (2 + w0 / 8) < List.length bitmap)%nat ->
  exists bitmap',
    setBit bitmap w0 = Some bitmap' /\
    List.length bitmap' = List.length bitmap /\
    nth 0 bitmap' 0 = nth 0 bitmap 0 /\
    nth 1 bitmap' 0 = nth 1 bitmap 0 /\
    forall w, 0 <= w -> bitOf bitmap' w = (w =? w0) || bitOf bitmap w.
Proof.
  intros Hw0 Hin. unfold setBit.
  pose proof (Z.div_pos w0 8 Hw0 ltac:(lia)) as Hq0.
  rewrite (nth_error_nth' bitmap 0 Hin).
  destruct (store_in_bounds bitmap (Z.to_nat (2 + w0 / 8))
              (u8 (Z.lor (nth (Z.to_nat (2 + w0 / 8)) bitmap 0)
                         (Z.shiftl 1 (w0 mod 8)))) Hin)
    as (bitmap' & -> & Hlen & Hnth).
  exists bitmap'. split; [reflexivity|]. split; [assumption|].
  assert (Hidx : (2 <= Z.to_nat (2 + w0 / 8))%nat) by lia.
  split; [|split].
  - rewrite Hnth. destruct (Nat.eqb_spec 0 (Z.to_nat (2 + w0 / 8))); [lia|].
    reflexivity.
  - rewrite Hnth. destruct (Nat.eqb_spec 1 (Z.to_nat (2 + w0 / 8))); [lia|].
    reflexivity.
  - intros w Hw. unfold bitOf. rewrite Hnth.
    pose proof (Z.div_pos w 8 Hw ltac:(lia)) as Hq.
    pose proof (Z.mod_pos_bound w 8 ltac:(lia)) as Hr.
    pose proof (Z.mod_pos_bound w0 8 ltac:(lia)) as Hr0.
    pose proof (Z.div_mod w 8 ltac:(lia)) as Hdm.
    pose proof (Z.div_mod w0 8 ltac:(lia)) as Hdm0.
    destruct (Nat.eqb_spec (Z.to_nat (2 + w / 8)) (Z.to_nat (2 + w0 / 8)))
      as [Heq|Hne].
    + assert (Hbyte : w / 8 = w0 / 8) by lia.
      rewrite testbit_set_bit by lia.
      rewrite Heq. f_equal.
      destruct (Z.eqb_spec (w mod 8) (w0 mod 8)), (Z.eqb_spec w w0);
        try reflexivity; lia.
    + destruct (Z.eqb_spec w w0) as [->|_]; [contradiction|reflexivity].
Qed.

(** ** Marking a block, then all of them *)

Lemma markWords_in_bounds k :
  forall bitmap o,
    0 <= o -> o + Z.of_nat k < 2 ^ 32 ->
    o + Z.of_nat k <= 8 * (Z.of_nat (List.length bitmap) - 2) ->
    exists bitmap',
      fold_left
        (fun acc l =>
           match acc with
           | Some bm => setBit bm (u32 (o + Z.of_nat l))
           | None => None
           end) (seq 0 k) (Some bitmap) = Some bitmap' /\
      List.length bitmap' = List.length bitmap /\
      nth 0 bitmap' 0 = nth 0 bitmap 0 /\
      nth 1 bitmap' 0 = nth 1 bitmap 0 /\
      forall w, 0 <= w ->
        bitOf bitmap' w
        = ((o <=? w) && (w <? o + Z.of_nat k)) || bitOf bitmap w.
Proof.
  induction k as [|k IH]; intros bitmap o Ho H32 Hfit.
  - exists bitmap. cbn [seq fold_left]. repeat split.
    intros w Hw.
    destruct (Z.leb_spec o w), (Z.ltb_spec w (o + Z.of_nat 0));
      cbn; try reflexivity; lia.
  - rewrite seq_S, fold_left_app. cbn [Nat.add fold_left].
    destruct (IH bitmap o Ho ltac:(lia) ltac:(lia))
      as (bm1 & -> & Hlen1 & Hh0 & Hh1 & Hbits1).
    rewrite u32_small by lia.
    destruct (setBit_in_bounds bm1 (o + Z.of_nat k) ltac:(lia))
      as (bm2 & -> & Hlen2 & Hg0 & Hg1 & Hbits2).
    { rewrite Hlen1.
      pose proof (Z.div_lt_upper_bound (o + Z.of_nat k) 8
                    (Z.of_nat (List.length bitmap) - 2)
                    ltac:(lia) ltac:(lia)).
      pose proof (Z.div_pos (o + Z.of_nat k) 8 ltac:(lia) ltac:(lia)).
      lia. }
    exists bm2. split; [reflexivity|].
    split; [congruence|]. split; [congruence|]. split; [congruence|].
    intros w Hw. rewrite Hbits2, Hbits1 by assumption.
    destruct (Z.eqb_spec w (o + Z.of_nat k)), (Z.leb_spec o w),
      (Z.ltb_spec w (o + Z.of_nat k)), (Z.ltb_spec w (o + Z.of_nat (S k)));
      cbn; try reflexivity; lia.
Qed.

Lemma markBlocks_in_bounds blocks :
  forall bitmap,
    Forall (fun b => 0 <= Block.offset b /\ 0 <= Block.length b /\
                     Block.offset b + Block.length b < 2 ^ 32 /\
                     Block.offset b + Block.length b
                       <= 8 * (Z.of_nat (List.length bitmap) - 2)) blocks ->
    exists bitmap',
      fold_left markBlock blocks (Some bitmap) = Some bitmap' /\
      List.length bitmap' = List.length bitmap /\
      nth 0 bitmap' 0 = nth 0 bitmap 0 /\
      nth 1 bitmap' 0 = nth 1 bitmap 0 /\
      forall w, 0 <= w ->
        bitOf bitmap' w
        = existsb (fun b => inExtent w (blockExtent b)) blocks
          || bitOf bitmap w.
Proof.
  induction blocks as [|b rest IH]; intros bitmap Hok.
  - exists bitmap. repeat split.
  - inversion Hok as [|? ? (Hb1 & Hb2 & Hb3 & Hb4) Hrest]; subst.
    cbn [fold_left]. unfold markBlock at 2.
    destruct (markWords_in_bounds (Z.to_nat (Block.length b)) bitmap
                (Block.offset b) Hb1 ltac:(lia) ltac:(lia))
      as (bm1 & -> & Hlen1 & Hh0 & Hh1 & Hbits1).
    destruct (IH bm1) as (bm2 & -> & Hlen2 & Hg0 & Hg1 & Hbits2).
    { rewrite Hlen1. assumption. }
    exists bm2. split; [reflexivity|].
    split; [congruence|]. split; [congruence|]. split; [congruence|].
    intros w Hw. rewrite Hbits2, Hbits1 by assumption.
    cbn [existsb]. rewrite Z2Nat.id by assumption.
    change (inExtent w (blockExtent b))
      with ((Block.offset b <=? w)
            && (w <? Block.offset b + Block.length b)).
    destruct ((Block.offset b <=? w)
              && (w <? Block.offset b + Block.length b)),
      (existsb (fun b0 => inExtent w (blockExtent b0)) rest),
      (bitOf bitmap w); reflexivity.
Qed.

(** ** [getBitmap] on a well-formed manager *)

Lemma bitOf_fresh h0 h1 n w :
  0 <= w -> bitOf (h0 :: h1 :: repeat 0 n) w = false.
Proof.
  intros Hw. unfold bitOf.
  pose proof (Z.div_pos w 8 Hw ltac:(lia)) as Hq.
  replace (Z.to_nat (2 + w / 8)) with (S (S (Z.to_nat (w / 8)))) by lia.
  cbn [nth].
  assert (Hz : nth (Z.to_nat (w / 8)) (repeat 0 n) 0 = 0).
  { generalize (Z.to_nat (w / 8)). induction n as [|n IH]; intros [|k];
      cbn; auto. }
  rewrite Hz. apply Z.testbit_0_l.
Qed.

Lemma existsb_inExtent_allocatedWord m w :
  existsb (fun b => inExtent w (blockExtent b)) (allocatedList m) = true
  <-> allocatedWord m w.
Proof.
  unfold allocatedWord. rewrite existsb_exists.
  split; intros (b & Hin & Hb); exists b; (split; [assumption|]);
    apply inExtent_iff in Hb || apply inExtent_iff; exact Hb.
Qed.

Lemma coverCount_positive w es :
  (1 <= coverCount w es)%nat <-> exists e, In e es /\ inExtent w e = true.
Proof.
  split.
  - induction es as [|e es IH]; cbn [coverCount]; [lia|].
    unfold covers. destruct (inExtent w e) eqn:He.
    + intros _. exists e. split; [now left | assumption].
    + intros H. destruct (IH ltac:(lia)) as (e' & Hin & He').
      exists e'. split; [now right | assumption].
  - intros (e & Hin & He). now apply coverCount_In with e.
Qed.

(** Under the tiling a word of the arena lies in a hole exactly when it
    lies in no allocation. *)
Lemma tiles_free_iff_not_allocated m w :
  tiles m -> 0 <= w < capacityWords m ->
  (freeWord m w <-> ~ allocatedWord m w).
Proof.
  intros Ht Hw. specialize (Ht w). unfold extents in Ht.
  rewrite coverCount_app in Ht.
  destruct (Z.leb_spec 0 w); [|lia].
  destruct (Z.ltb_spec w (capacityWords m)); [|lia]. cbn [andb] in Ht.
  assert (Hfree : freeWord m w
                  <-> (1 <= coverCount w (map holeExtent (holeList m)))%nat).
  { rewrite coverCount_positive. unfold freeWord. split.
    - intros (h & Hin & Hh). exists (holeExtent h).
      split; [now apply in_map|]. now apply inExtent_iff.
    - intros (e & Hin & He). apply in_map_iff in Hin.
      destruct Hin as (h & <- & Hin). exists h. split; [assumption|].
      now apply inExtent_iff in He. }
  assert (Halloc : allocatedWord m w
                   <-> (1 <= coverCount w (map blockExtent
                                               (allocatedList m)))%nat).
  { rewrite coverCount_positive. unfold allocatedWord. split.
    - intros (b & Hin & Hb). exists (blockExtent b).
      split; [now apply in_map|]. now apply inExtent_iff.
    - intros (e & Hin & He). apply in_map_iff in Hin.
      destruct Hin as (b & <- & Hin). exists b. split; [assumption|].
      now apply inExtent_iff in He. }
  rewrite Hfree, Halloc. lia.
Qed.

Lemma bitmapSizeInBytes_wellFormed m :
  wellFormed m ->
  bitmapSizeInBytes m = (capacityWords m + 7) / 8 /\
  0 <= bitmapSizeInBytes m < 2 ^ 13 + 1 /\
  capacityWords m <= 8 * bitmapSizeInBytes m.
Proof.
  intros Hwf. pose proof (wf_capacity m Hwf) as Hcap.
  unfold MAX_NUM_WORDS in Hcap. unfold bitmapSizeInBytes.
  fold (capacityWords m).
  rewrite (u32_small (capacityWords m)) by lia.
  rewrite (u32_small (capacityWords m + 7)) by lia.
  pose proof (Z.div_mod (capacityWords m + 7) 8 ltac:(lia)) as Hdm.
  pose proof (Z.mod_pos_bound (capacityWords m + 7) 8 ltac:(lia)) as Hr.
  split; [reflexivity|]. lia.
Qed.

(** All that [getBitmap] gives for a live, well-formed manager. *)
Lemma getBitmap_wellFormed m :
  wellFormed m -> memoryStart m <> nullptr ->
  exists bytes,
    getBitmap m = Array bytes /\
    Z.of_nat (List.length bytes) = 2 + (capacityWords m + 7) / 8 /\
    nth 0 bytes 0 = ((capacityWords m + 7) / 8) mod 256 /\
    nth 1 bytes 0 = ((capacityWords m + 7) / 8) / 256 /\
    forall w, 0 <= w ->
      bitOf bytes w
      = existsb (fun b => inExtent w (blockExtent b)) (allocatedList m).
Proof.
  intros Hwf Hlive.
  destruct (bitmapSizeInBytes_wellFormed m Hwf) as (Hsize & Hrange & Hcov).
  unfold getBitmap.
  destruct (Z.eqb_spec (memoryStart m) nullptr); [contradiction|].
  set (size := bitmapSizeInBytes m) in *.
  set (bitmap := u8 (Z.land size 255) :: u8 (Z.land (Z.shiftr size 8) 255)
                 :: repeat 0 (Z.to_nat size)).
  assert (Hlen : Z.of_nat (List.length bitmap) = 2 + size).
  { unfold bitmap. cbn [List.length]. rewrite repeat_length. lia. }
  destruct (markBlocks_in_bounds (allocatedList m) bitmap)
    as (bytes & -> & Hlen' & Hh0 & Hh1 & Hbits).
  { apply Forall_forall. intros b Hin.
    pose proof (wf_blocks m Hwf) as Hpos. rewrite Forall_forall in Hpos.
    specialize (Hpos b Hin).
    destruct (tiles_extent_range m (blockExtent b) (wf_tiles m Hwf))
      as [Hlo Hhi]; [apply in_or_app; right; now apply in_map | exact Hpos |].
    cbn [blockExtent fst snd] in Hlo, Hhi.
    pose proof (wf_capacity m Hwf) as Hcap. unfold MAX_NUM_WORDS in Hcap.
    lia. }
  exists bytes. split; [reflexivity|].
  split; [lia|].
  change 255 with (Z.ones 8) in bitmap.
  split; [|split].
  - rewrite Hh0. unfold bitmap. cbn [nth].
    rewrite Z.land_ones by lia. unfold u8.
    rewrite Z.mod_mod by lia. now rewrite <- Hsize.
  - rewrite Hh1. unfold bitmap. cbn [nth].
    rewrite Z.land_ones, Z.shiftr_div_pow2 by lia. unfold u8.
    rewrite Z.mod_mod by lia. rewrite <- Hsize.
    apply Z.mod_small. split.
    + apply Z.div_pos; lia.
    + apply Z.div_lt_upper_bound; lia.
  - intros w Hw. rewrite Hbits by assumption.
    unfold bitmap. rewrite bitOf_fresh by assumption. apply orb_false_r.
Qed.

(** ** Managers of the concrete runs *)

Lemma posix_mmap_posixLike : posixLike (posix_mmap 4096).
Proof.
  split; [reflexivity|].
  intros len. unfold posix_mmap, MAP_FAILED. destruct (len =? 0); lia.
Qed.

Lemma arena32WithBlock_reachable : reachableInRange arena32WithBlock.
Proof.
  apply (reach_call demoArena (Allocate 32)).
  - exact demoArena_reachable.
  - vm_compute. repeat split; discriminate.
Qed.

Lemma arena32WithBlock_wellFormed : wellFormed arena32WithBlock.
Proof. apply reachableInRange_wellFormed, arena32WithBlock_reachable. Qed.

Lemma arena32WithBlock_live : live arena32WithBlock.
Proof. discriminate. Qed.

Lemma demoArena_wellFormed : wellFormed demoArena.
Proof. apply reachableInRange_wellFormed, demoArena_reachable. Qed.

(** ** What the bitmap holds *)

(** X1. For a well-formed manager [getBitmap] returns null when no arena
    is live; otherwise it returns an array of 2 + ceil(capacityWords / 8)
    bytes whose first two bytes are that byte count of the bit field,
    low byte first, and it never writes outside the array. *)
Theorem getBitmap_layout :
  forall m : MemoryManager,
    wellFormed m ->
    (memoryStart m = nullptr /\ getBitmap m = Null)
    \/
    (memoryStart m <> nullptr /\
     exists bytes,
       getBitmap m = Array bytes /\
       Z.of_nat (List.length bytes) = 2 + (capacityWords m + 7) / 8 /\
       0 <= nth 0 bytes 0 < 256 /\ 0 <= nth 1 bytes 0 < 256 /\
       nth 0 bytes 0 + 256 * nth 1 bytes 0 = (capacityWords m + 7) / 8).
Proof.
  intros m Hwf.
  destruct (Z.eq_dec (memoryStart m) nullptr) as [Hnull|Hlive].
  - left. split; [assumption|]. unfold getBitmap.
    now destruct (Z.eqb_spec (memoryStart m) nullptr).
  - right. split; [assumption|].
    destruct (getBitmap_wellFormed m Hwf Hlive)
      as (bytes & Hb & Hlen & Hh0 & Hh1 & _).
    destruct (bitmapSizeInBytes_wellFormed m Hwf) as (Hsize & Hrange & _).
    rewrite Hsize in Hrange.
    exists bytes. split; [assumption|]. split; [assumption|].
    pose proof (Z.mod_pos_bound ((capacityWords m + 7) / 8) 256 ltac:(lia)).
    pose proof (Z.div_mod ((capacityWords m + 7) / 8) 256 ltac:(lia)).
    rewrite Hh0, Hh1. repeat split; lia.
Qed.

Lemma getBitmap_layout_witness :
  wellFormed arena32WithBlock /\
  ((memoryStart arena32WithBlock = nullptr /\
    getBitmap arena32WithBlock = Null)
   \/
   (memoryStart arena32WithBlock <> nullptr /\
    exists bytes,
      getBitmap arena32WithBlock = Array bytes /\
      Z.of_nat (List.length bytes)
        = 2 + (capacityWords arena32WithBlock + 7) / 8 /\
      0 <= nth 0 bytes 0 < 256 /\ 0 <= nth 1 bytes 0 < 256 /\
      nth 0 bytes 0 + 256 * nth 1 bytes 0
        = (capacityWords arena32WithBlock + 7) / 8)).
Proof.
  split; [exact arena32WithBlock_wellFormed|].
  exact (getBitmap_layout arena32WithBlock arena32WithBlock_wellFormed).
Defined.

(** X2. For a live, well-formed manager, bit [w] of the bit field that
    [getBitmap] returns (byte [w / 8], bit [w mod 8]) is set exactly when
    word [w] lies in an allocation of the Allocation Ledger; the padding
    bits past the capacity are therefore clear. *)
Theorem getBitmap_bit_set_iff_allocated :
  forall m : MemoryManager,
    wellFormed m -> live m ->
    exists bytes,
      getBitmap m = Array bytes /\
      forall w, 0 <= w -> (bitOf bytes w = true <-> allocatedWord m w).
Proof.
  intros m Hwf Hlive.
  destruct (getBitmap_wellFormed m Hwf Hlive) as (bytes & Hb & _ & _ & _ & Hbits).
  exists bytes. split; [assumption|].
  intros w Hw. rewrite Hbits by assumption.
  apply existsb_inExtent_allocatedWord.
Qed.

Lemma getBitmap_bit_set_iff_allocated_witness :
  wellFormed arena32WithBlock /\ live arena32WithBlock /\
  exists bytes,
    getBitmap arena32WithBlock = Array bytes /\
    forall w, 0 <= w ->
      (bitOf bytes w = true <-> allocatedWord arena32WithBlock w).
Proof.
  split; [exact arena32WithBlock_wellFormed|].
  split; [exact arena32WithBlock_live|].
  exact (getBitmap_bit_set_iff_allocated arena32WithBlock
           arena32WithBlock_wellFormed arena32WithBlock_live).
Defined.

(** X3. For a live, well-formed manager and a word [w] of the arena, bit
    [w] of the bitmap is clear exactly when [w] lies in a hole of the
    Hole Ledger: the bitmap and the hole list describe the same
    partition. *)
Theorem getBitmap_bit_clear_iff_free :
  forall m : MemoryManager,
    wellFormed m -> live m ->
    exists bytes,
      getBitmap m = Array bytes /\
      forall w, 0 <= w < capacityWords m ->
        (bitOf bytes w = false <-> freeWord m w).
Proof.
  intros m Hwf Hlive.
  destruct (getBitmap_wellFormed m Hwf Hlive) as (bytes & Hb & _ & _ & _ & Hbits).
  exists bytes. split; [assumption|].
  intros w Hw. rewrite Hbits by lia.
  rewrite (tiles_free_iff_not_allocated m w (wf_tiles m Hwf) Hw).
  rewrite <- existsb_inExtent_allocatedWord.
  destruct (existsb _ (allocatedList m)); split; congruence.
Qed.

Lemma getBitmap_bit_clear_iff_free_witness :
  wellFormed arena32WithBlock /\ live arena32WithBlock /\
  exists bytes,
    getBitmap arena32WithBlock = Array bytes /\
    forall w, 0 <= w < capacityWords arena32WithBlock ->
      (bitOf bytes w = false <-> freeWord arena32WithBlock w).
Proof.
  split; [exact arena32WithBlock_wellFormed|].
  split; [exact arena32WithBlock_live|].
  exact (getBitmap_bit_clear_iff_free arena32WithBlock
           arena32WithBlock_wellFormed arena32WithBlock_live).
Defined.

(* ================================================================= *)
(** * The snapshot and the printer *)

Lemma fitsSnapshot_In holes h :
  fitsSnapshot holes -> In h holes ->
  u16 (Hole.offset h) = Hole.offset h /\ u16 (Hole.length h) = Hole.length h.
Proof.
  intros [_ Hok] Hin. rewrite Forall_forall in Hok.
  destruct (Hok h Hin). split; apply u16_small; assumption.
Qed.

Lemma twoHoles_fitsSnapshot : fitsSnapshot (holeList twoHoles).
Proof.
  change (holeList twoHoles) with [Hole.mk 0 4; Hole.mk 10 2]
    || (vm_compute; fail).
  split; [reflexivity|]. repeat constructor; cbn; lia.
Qed.

(** Reading hole number [i] of the snapshot of a ledger that fits it. *)
Lemma snapshotHole_encodeHoles holes i h :
  fitsSnapshot holes -> nth_error holes i = Some h ->
  snapshotHole (encodeHoles holes) i = h.
Proof.
  intros Hfits Hi.
  destruct (fitsSnapshot_In holes h Hfits (nth_error_In _ _ Hi)) as [Ho Hl].
  destruct (nth_error_split _ _ Hi) as (pre & rest & -> & <-).
  unfold snapshotHole, encodeHoles.
  destruct (nth_encoded (u16 (Z.of_nat (List.length (pre ++ h :: rest))))
              pre h rest) as [-> ->].
  rewrite Ho, Hl. now destruct h.
Qed.

(** X4. For a Hole Ledger that fits the 16-bit encoding, [getList]
    returns null exactly when the ledger is empty, and otherwise an array
    of 1 + 2 * count entries that reads back as the ledger: entry 0 is the
    number of holes and the pair of hole number [i] is its offset and
    length, in ledger order. *)
Theorem getList_reads_back :
  forall m : MemoryManager,
    fitsSnapshot (holeList m) ->
    (holeList m = [] /\ getList m = None)
    \/
    (holeList m <> [] /\
     exists list,
       getList m = Some list /\
       List.length list = (1 + 2 * List.length (holeList m))%nat /\
       snapshotCount list = Z.of_nat (List.length (holeList m)) /\
       forall i h, nth_error (holeList m) i = Some h ->
                   snapshotHole list i = h).
Proof.
  intros m Hfits. unfold getList.
  destruct (holeList m) as [|h0 rest] eqn:Hl.
  - left. now split.
  - right. split; [discriminate|].
    exists (encodeHoles (h0 :: rest)). split; [reflexivity|].
    split; [|split].
    + unfold encodeHoles. cbn [List.length].
      fold (flat_map encodeHole (h0 :: rest)).
      rewrite flat_map_enc_length. cbn [List.length]. lia.
    + unfold snapshotCount, encodeHoles. cbn [nth].
      apply u16_small. destruct Hfits. lia.
    + intros i h Hi. now apply snapshotHole_encodeHoles.
Qed.

Lemma getList_reads_back_witness :
  fitsSnapshot (holeList twoHoles) /\
  ((holeList twoHoles = [] /\ getList twoHoles = None)
   \/
   (holeList twoHoles <> [] /\
    exists list,
      getList twoHoles = Some list /\
      List.length list = (1 + 2 * List.length (holeList twoHoles))%nat /\
      snapshotCount list = Z.of_nat (List.length (holeList twoHoles)) /\
      forall i h, nth_error (holeList twoHoles) i = Some h ->
                  snapshotHole list i = h)).
Proof.
  assert (H : fitsSnapshot (holeList twoHoles))
    by exact twoHoles_fitsSnapshot.
  split; [exact H|]. exact (getList_reads_back twoHoles H).
Defined.

(** ** The printer *)

Lemma string_append_empty_r (a : string) : (a ++ EmptyString)%string = a.
Proof. induction a as [|x a IH]; cbn; [reflexivity | now rewrite IH]. Qed.

Lemma printStep_encodeHoles pre h rest out :
  fitsSnapshot (pre ++ h :: rest) ->
  printStep (encodeHoles (pre ++ h :: rest)) out (List.length pre)
  = (out ++ holeEntry h
         ++ match rest with [] => EmptyString | _ :: _ => delim end)%string.
Proof.
  intros Hfits.
  destruct (fitsSnapshot_In _ h Hfits) as [Ho Hl];
    [apply in_or_app; right; now left|].
  unfold printStep.
  assert (Hcount : nth 0 (encodeHoles (pre ++ h :: rest)) 0
                   = Z.of_nat (List.length (pre ++ h :: rest))).
  { unfold encodeHoles. cbn [nth]. apply u16_small. destruct Hfits. lia. }
  rewrite Hcount. unfold encodeHoles.
  destruct (nth_encoded (u16 (Z.of_nat (List.length (pre ++ h :: rest))))
              pre h rest) as [-> ->].
  rewrite Ho, Hl. rewrite length_app. cbn [List.length].
  f_equal. unfold holeEntry.
  assert (Hsep : (if Z.of_nat (List.length pre)
                     <? Z.of_nat (List.length pre + S (List.length rest)) - 1
                  then delim else EmptyString)
                 = match rest with [] => EmptyString | _ :: _ => delim end).
  { destruct rest; cbn [List.length].
    - destruct (Z.ltb_spec (Z.of_nat (List.length pre))
                  (Z.of_nat (List.length pre + 1) - 1)); [lia|reflexivity].
    - destruct (Z.ltb_spec (Z.of_nat (List.length pre))
                  (Z.of_nat (List.length pre + S (S (List.length rest))) - 1));
        [reflexivity|lia]. }
  rewrite Hsep. cbn [append]. f_equal.
  rewrite string_append_assoc. cbn [append].
  rewrite string_append_assoc. reflexivity.
Qed.

Lemma fold_printStep rest :
  forall pre out,
    fitsSnapshot (pre ++ rest) ->
    fold_left (printStep (encodeHoles (pre ++ rest)))
              (seq (List.length pre) (List.length rest)) out
    = (out ++ renderHoles rest)%string.
Proof.
  induction rest as [|h rest IH]; intros pre out Hfits.
  - cbn. now rewrite string_append_empty_r.
  - cbn [List.length seq fold_left].
    rewrite printStep_encodeHoles by assumption.
    replace (pre ++ h :: rest) with ((pre ++ [h]) ++ rest) in *
      by now rewrite <- app_assoc.
    replace (S (List.length pre)) with (List.length (pre ++ [h]))
      by (rewrite length_app; cbn; lia).
    rewrite IH by assumption.
    destruct rest as [|h' rest'].
    + cbn [renderHoles]. now rewrite !string_append_empty_r.
    + cbn [renderHoles]. now rewrite !string_append_assoc.
Qed.

(** X5. For a Hole Ledger that fits the 16-bit encoding, [printHoleList]
    prints the line ["  Hole list: (empty)"] when the ledger is empty and
    otherwise ["  Hole list: "] followed by the entries ["[offset,
    length]"] in ledger order with [" - "] between them: the text
    [dumpMemoryMap] writes to its file, on one line. *)
Theorem printHoleList_text :
  forall m : MemoryManager,
    fitsSnapshot (holeList m) ->
    printHoleList m
    = ("  Hole list: "
       ++ match holeList m with
          | [] => "(empty)"
          | _ :: _ => renderHoles (holeList m)
          end ++ newline)%string.
Proof.
  intros m Hfits. unfold printHoleList, getList.
  destruct (holeList m) as [|h0 rest] eqn:Hl; [reflexivity|].
  assert (Hcount : nth 0 (encodeHoles (h0 :: rest)) 0
                   = Z.of_nat (List.length (h0 :: rest))).
  { unfold encodeHoles. cbn [nth]. apply u16_small. destruct Hfits. lia. }
  rewrite Hcount, Nat2Z.id.
  rewrite (fold_printStep (h0 :: rest) [] _ Hfits).
  now rewrite string_append_assoc.
Qed.

Lemma printHoleList_text_witness :
  fitsSnapshot (holeList twoHoles) /\
  printHoleList twoHoles
  = ("  Hole list: "
     ++ match holeList twoHoles with
        | [] => "(empty)"
        | _ :: _ => renderHoles (holeList twoHoles)
        end ++ newline)%string.
Proof.
  assert (H : fitsSnapshot (holeList twoHoles))
    by exact twoHoles_fitsSnapshot.
  split; [exact H|]. exact (printHoleList_text twoHoles H).
Defined.

(* ================================================================= *)
(** * The lifecycle, the getters and the strategy setter *)

(** X6. After an [initialize] with a size of at most 65535 words that
    [mmap] grants, [getWordSize] is the word size unchanged,
    [getMemoryStart] is the pointer [mmap] returned, the capacity is the
    size asked for, and [getMemoryLimit] is the byte size
    [sizeInWords * wordSize] reduced modulo 2^32: the byte size itself
    only while that is below 2^32. *)
Theorem initialize_then_getters :
  forall (mmap : Z -> Z) (sizeInWords : Z) (m : MemoryManager),
    0 <= sizeInWords <= MAX_NUM_WORDS ->
    0 < wordSize m < 2 ^ 32 ->
    mmap (sizeInWords * wordSize m) <> MAP_FAILED ->
    getWordSize (fst (initialize mmap sizeInWords m)) = wordSize m /\
    getMemoryStart (fst (initialize mmap sizeInWords m))
      = mmap (sizeInWords * wordSize m) /\
    capacityWords (fst (initialize mmap sizeInWords m)) = sizeInWords /\
    getMemoryLimit (fst (initialize mmap sizeInWords m))
      = (sizeInWords * wordSize m) mod 2 ^ 32 /\
    (sizeInWords * wordSize m < 2 ^ 32 ->
     getMemoryLimit (fst (initialize mmap sizeInWords m))
       = sizeInWords * wordSize m).
Proof.
  intros mmap n m Hn Hws Hmap. unfold MAX_NUM_WORDS in Hn.
  unfold initialize.
  assert (Hws1 : wordSize (if memoryStart m =? nullptr then m
                           else shutdown m) = wordSize m)
    by (destruct (_ =? _); reflexivity).
  rewrite Hws1.
  destruct (Z.gtb_spec n MAX_NUM_WORDS) as [Hgt|_];
    [unfold MAX_NUM_WORDS in Hgt; lia|].
  rewrite u64_small by nia.
  destruct (Z.eqb_spec (mmap (n * wordSize m)) MAP_FAILED);
    [contradiction|].
  unfold getWordSize, getMemoryStart, getMemoryLimit, capacityWords, u32.
  cbn [fst wordSize memoryStart memoryLimit]. rewrite ?Hws1.
  repeat split.
  - apply Z.div_mul. lia.
  - intros Hsmall. apply Z.mod_small. nia.
Qed.

Lemma initialize_then_getters_witness :
  0 <= 32 <= MAX_NUM_WORDS /\
  0 < wordSize (construct 8 bestFit) < 2 ^ 32 /\
  posix_mmap 4096 (32 * wordSize (construct 8 bestFit)) <> MAP_FAILED /\
  (getWordSize (fst (initialize (posix_mmap 4096) 32 (construct 8 bestFit)))
     = wordSize (construct 8 bestFit) /\
   getMemoryStart (fst (initialize (posix_mmap 4096) 32
                                   (construct 8 bestFit)))
     = posix_mmap 4096 (32 * wordSize (construct 8 bestFit)) /\
   capacityWords (fst (initialize (posix_mmap 4096) 32
                                  (construct 8 bestFit))) = 32 /\
   getMemoryLimit (fst (initialize (posix_mmap 4096) 32
                                   (construct 8 bestFit)))
     = (32 * wordSize (construct 8 bestFit)) mod 2 ^ 32 /\
   (32 * wordSize (construct 8 bestFit) < 2 ^ 32 ->
    getMemoryLimit (fst (initialize (posix_mmap 4096) 32
                                    (construct 8 bestFit)))
      = 32 * wordSize (construct 8 bestFit))).
Proof.
  assert (H1 : 0 <= 32 <= MAX_NUM_WORDS) by (split; discriminate).
  assert (H2 : 0 < wordSize (construct 8 bestFit) < 2 ^ 32)
    by (split; reflexivity).
  assert (H3 : posix_mmap 4096 (32 * wordSize (construct 8 bestFit))
               <> MAP_FAILED) by discriminate.
  split; [exact H1|]. split; [exact H2|]. split; [exact H3|].
  exact (initialize_then_getters (posix_mmap 4096) 32 (construct 8 bestFit)
           H1 H2 H3).
Defined.

(** X7. After [shutdown], whatever the manager was: no arena is live,
    both ledgers are empty, every [allocate] returns null and every
    [free] changes nothing, [getList] and [getBitmap] return null, and a
    second [shutdown] changes nothing. *)
Theorem shutdown_inert :
  forall m : MemoryManager,
    memoryStart (shutdown m) = nullptr /\
    holeList (shutdown m) = [] /\
    allocatedList (shutdown m) = [] /\
    (forall sizeInBytes,
       allocate sizeInBytes (shutdown m) = (nullptr, shutdown m)) /\
    (forall address, free address (shutdown m) = shutdown m) /\
    getList (shutdown m) = None /\
    getBitmap (shutdown m) = Null /\
    shutdown (shutdown m) = shutdown m.
Proof.
  intros m.
  assert (Hstart : memoryStart (shutdown m) = nullptr).
  { cbn. destruct (Z.eqb_spec (memoryStart m) nullptr); cbn; congruence. }
  split; [assumption|]. split; [reflexivity|]. split; [reflexivity|].
  split; [|split; [|split; [|split]]].
  - intros n. unfold allocate. rewrite Hstart. reflexivity.
  - intros a. unfold free. rewrite Hstart. reflexivity.
  - reflexivity.
  - unfold getBitmap. rewrite Hstart. reflexivity.
  - unfold shutdown.
    cbn [memoryStart memoryLimit wordSize allocator].
    destruct (memoryStart m =? nullptr) eqn:E; cbn [negb].
    + now rewrite E.
    + reflexivity.
Qed.

(** X8. Swapping the strategy does not touch what is placed: [free]
    commutes with [setAllocator], and [getList] and [getBitmap] return
    after the swap what they returned before it. *)
Theorem setAllocator_keeps_allocations :
  forall (s : strategy) (m : MemoryManager) (address : Z),
    free address (setAllocator s m) = setAllocator s (free address m) /\
    getList (setAllocator s m) = getList m /\
    getBitmap (setAllocator s m) = getBitmap m.
Proof.
  intros s m a. split; [|split; reflexivity].
  unfold free, setAllocator, wordOffsetOf.
  cbn [memoryStart wordSize memoryLimit allocatedList holeList allocator].
  destruct ((memoryStart m =? nullptr) || (a =? nullptr)); [reflexivity|].
  destruct (removeBlock _ (allocatedList m)) as [[len blocks']|];
    reflexivity.
Qed.

(* ================================================================= *)
(** * The Allocation Ledger after any calls *)

Lemma insertBlock_StronglySorted b l :
  StronglySorted blockBefore l -> StronglySorted blockBefore (insertBlock b l).
Proof.
  induction 1 as [|x l Hl IH Hx]; cbn [insertBlock].
  - repeat constructor.
  - destruct (Z.ltb_spec (Block.offset x) (Block.offset b)) as [Hlt|Hge].
    + constructor; [assumption|].
      assert (Hin : forall y, In y (insertBlock b l) -> y = b \/ In y l).
      { clear. induction l as [|z l IHl]; cbn [insertBlock].
        - intros y [<-|[]]. now left.
        - destruct (Block.offset z <? Block.offset b).
          + intros y [<-|Hy]; [right; now left|].
            destruct (IHl y Hy); [now left | right; now right].
          + intros y [<-|Hy]; [now left | now right]. }
      apply Forall_forall. intros y Hy.
      destruct (Hin y Hy) as [->|Hyl].
      * unfold blockBefore. lia.
      * rewrite Forall_forall in Hx. now apply Hx.
    + constructor; [now constructor|].
      constructor; [exact Hge|].
      rewrite Forall_forall in *. intros y Hy.
      specialize (Hx y Hy). unfold blockBefore in *. lia.
Qed.

Lemma removeBlock_StronglySorted q l len l' :
  removeBlock q l = Some (len, l') ->
  StronglySorted blockBefore l -> StronglySorted blockBefore l'.
Proof.
  intros Hrem Hs. revert l' Hrem.
  induction Hs as [|x l Hl IH Hx]; intros l'; cbn [removeBlock].
  - discriminate.
  - destruct (Block.offset x =? q).
    + intros [= <- <-]. assumption.
    + destruct (removeBlock q l) as [[len0 rest']|] eqn:Hr; [|discriminate].
      intros [= <- <-]. constructor; [now apply IH|].
      destruct (removeBlock_Some _ _ _ _ Hr) as (_ & _ & HP).
      now apply HP.
Qed.

Lemma perform_blocks_sorted c m :
  StronglySorted blockBefore (allocatedList m) ->
  StronglySorted blockBefore (allocatedList (perform c m)).
Proof.
  intros Hs. destruct c as [mmap n| |n|a|s]; cbn [perform].
  - unfold initialize.
    assert (Hs1 : StronglySorted blockBefore
                    (allocatedList (if memoryStart m =? nullptr then m
                                    else shutdown m)))
      by (destruct (_ =? _); [assumption | constructor]).
    destruct (n >? MAX_NUM_WORDS); [assumption|].
    destruct (_ =? MAP_FAILED); cbn; [assumption | constructor].
  - constructor.
  - unfold allocate.
    destruct ((memoryStart m =? nullptr) || (n =? 0)); [assumption|].
    destruct (getList m); [|assumption].
    destruct (_ =? -1); [assumption|].
    destruct (takeFromHole _ _ _); [|assumption].
    cbn. now apply insertBlock_StronglySorted.
  - unfold free.
    destruct ((memoryStart m =? nullptr) || (a =? nullptr)); [assumption|].
    destruct (removeBlock _ (allocatedList m)) as [[len blocks']|] eqn:Hr;
      [|assumption].
    cbn. now apply (removeBlock_StronglySorted _ _ _ _ Hr).
  - assumption.
Qed.

(** X9. After any sequence of calls on a constructed manager, whatever
    their arguments and whatever the strategy answers, the Allocation
    Ledger is in offset order: no allocation is listed before one of a
    smaller offset. *)
Theorem allocation_ledger_in_offset_order :
  forall m : MemoryManager,
    reachable m -> StronglySorted blockBefore (allocatedList m).
Proof.
  induction 1 as [ws s | m c _ IH].
  - constructor.
  - now apply perform_blocks_sorted.
Qed.

Lemma arenaAfter2GiBRequest_reachable : reachable arenaAfter2GiBRequest.
Proof.
  unfold arenaAfter2GiBRequest.
  repeat apply reachable_call. apply reachable_construct.
Qed.

(** The manager of the witness has had a request of 2^31 bytes, out of
    range; its Allocation Ledger holds the two allocations (0,2^31) and
    (2,2). *)
Lemma allocation_ledger_in_offset_order_witness :
  reachable arenaAfter2GiBRequest /\
  StronglySorted blockBefore (allocatedList arenaAfter2GiBRequest).
Proof.
  split; [exact arenaAfter2GiBRequest_reachable|].
  exact (allocation_ledger_in_offset_order _
           arenaAfter2GiBRequest_reachable).
Defined.

(* ================================================================= *)
(** * More invariants of calls in range *)

Lemma holeChain_StronglySorted lo hi holes :
  holeChain 1 lo hi holes -> StronglySorted holeBefore holes.
Proof.
  revert lo. induction holes as [|h rest IH]; intros lo Hc.
  - constructor.
  - cbn [holeChain] in Hc. destruct Hc as (H1 & H2 & H3).
    constructor; [now apply (IH _ H3)|].
    apply Forall_forall. intros x Hx.
    destruct (holeChain_In 1 _ _ _ x ltac:(lia) H3 Hx).
    unfold holeBefore. lia.
Qed.

(** X12. After any sequence of calls in range: the capacity is at most
    65535 words, the Hole Ledger is in strictly increasing offset order,
    and every hole and every allocation has a positive length and lies
    inside [[0, capacityWords)]. *)
Theorem ledgers_ordered_inside_arena :
  forall m : MemoryManager,
    reachableInRange m ->
    0 <= capacityWords m <= MAX_NUM_WORDS /\
    StronglySorted holeBefore (holeList m) /\
    Forall (fun h => insideArena (capacityWords m) (holeExtent h))
           (holeList m) /\
    Forall (fun b => insideArena (capacityWords m) (blockExtent b))
           (allocatedList m).
Proof.
  intros m Hr. apply reachableInRange_wellFormed in Hr.
  destruct Hr as [Hws Hstart Hlim Hcap Hblocks Hholes Htiles Hstrat].
  split; [assumption|]. split; [|split].
  - now apply holeChain_StronglySorted with (-1) (capacityWords m).
  - apply Forall_forall. intros h Hin.
    destruct (holeChain_In 1 _ _ _ h ltac:(lia) Hholes Hin).
    unfold insideArena. cbn. lia.
  - apply Forall_forall. intros b Hin.
    rewrite Forall_forall in Hblocks. specialize (Hblocks b Hin).
    destruct (tiles_extent_range m (blockExtent b) Htiles)
      as [Hlo Hhi]; [apply in_or_app; right; now apply in_map | exact Hblocks |].
    unfold insideArena. cbn in *. lia.
Qed.

Lemma ledgers_ordered_inside_arena_witness :
  reachableInRange arena32WithBlock /\
  (0 <= capacityWords arena32WithBlock <= MAX_NUM_WORDS /\
   StronglySorted holeBefore (holeList arena32WithBlock) /\
   Forall (fun h => insideArena (capacityWords arena32WithBlock)
                                (holeExtent h))
          (holeList arena32WithBlock) /\
   Forall (fun b => insideArena (capacityWords arena32WithBlock)
                                (blockExtent b))
          (allocatedList arena32WithBlock)).
Proof.
  split; [exact arena32WithBlock_reachable|].
  exact (ledgers_ordered_inside_arena _ arena32WithBlock_reachable).
Defined.

(** X14. After any sequence of calls in range, a manager with no live
    arena has both ledgers empty and a byte size of 0. *)
Theorem not_live_ledgers_empty :
  forall m : MemoryManager,
    reachableInRange m -> memoryStart m = nullptr ->
    holeList m = [] /\ allocatedList m = [] /\ memoryLimit m = 0.
Proof.
  intros m Hr Hnull. apply reachableInRange_wellFormed in Hr.
  destruct Hr as [Hws Hstart Hlim Hcap Hblocks Hholes Htiles Hstrat].
  specialize (Hlim Hnull).
  assert (Hzero : capacityWords m = 0)
    by (unfold capacityWords; rewrite Hlim; reflexivity).
  split; [|split; [|assumption]].
  - destruct (holeList m) as [|h rest] eqn:E; [reflexivity|].
    destruct (holeChain_In 1 _ _ _ h ltac:(lia) Hholes (or_introl eq_refl)).
    lia.
  - destruct (allocatedList m) as [|b rest] eqn:E; [reflexivity|].
    inversion Hblocks as [|? ? Hb _]; subst.
    destruct (tiles_extent_range m (blockExtent b) Htiles)
      as [Hlo Hhi];
      [apply in_or_app; right; rewrite E; now left | exact Hb |].
    cbn in *. lia.
Qed.

Lemma not_live_ledgers_empty_witness :
  reachableInRange (perform Shutdown arena32WithBlock) /\
  memoryStart (perform Shutdown arena32WithBlock) = nullptr /\
  (holeList (perform Shutdown arena32WithBlock) = [] /\
   allocatedList (perform Shutdown arena32WithBlock) = [] /\
   memoryLimit (perform Shutdown arena32WithBlock) = 0).
Proof.
  assert (H : reachableInRange (perform Shutdown arena32WithBlock))
    by (apply reach_call; [exact arena32WithBlock_reachable | exact I]).
  split; [exact H|]. split; [reflexivity|].
  exact (not_live_ledgers_empty _ H eq_refl).
Defined.

(** ** The words of the two ledgers *)

Lemma holeWords_app l1 l2 :
  holeWords (l1 ++ l2) = holeWords l1 + holeWords l2.
Proof.
  induction l1 as [|h l1 IH]; unfold holeWords in *;
    cbn [app fold_right] in *; lia.
Qed.

Lemma holeWords_insertHole h l :
  holeWords (insertHole h l) = Hole.length h + holeWords l.
Proof.
  induction l as [|x l IH]; cbn [insertHole]; [reflexivity|].
  destruct (Hole.offset x <? Hole.offset h); unfold holeWords in *;
    cbn [fold_right] in *; lia.
Qed.

Lemma blockWords_insertBlock b l :
  blockWords (insertBlock b l) = Block.length b + blockWords l.
Proof.
  induction l as [|x l IH]; cbn [insertBlock]; [reflexivity|].
  destruct (Block.offset x <? Block.offset b); unfold blockWords in *;
    cbn [fold_right] in *; lia.
Qed.

Lemma blockWords_removeBlock q l len l' :
  removeBlock q l = Some (len, l') -> blockWords l = len + blockWords l'.
Proof.
  revert l'. induction l as [|b rest IH]; intros l'; cbn [removeBlock].
  - discriminate.
  - destruct (Block.offset b =? q).
    + intros [= <- <-]. reflexivity.
    + destruct (removeBlock q rest) as [[len0 rest']|]; [|discriminate].
      intros [= <- <-]. specialize (IH rest' eq_refl).
      unfold blockWords in *. cbn [fold_right] in *. lia.
Qed.

Lemma holeWords_mergeFrom rest :
  forall cur lo hi,
    holeChain 0 lo hi (cur :: rest) -> 0 <= lo -> hi < 2 ^ 32 ->
    holeWords (mergeFrom cur rest) = holeWords (cur :: rest).
Proof.
  induction rest as [|next rest IH]; intros cur lo hi Hc Hlo Hhi.
  - reflexivity.
  - cbn [holeChain] in Hc.
    destruct Hc as (Hc1 & Hc2 & Hn1 & Hn2 & Hrest).
    pose proof (holeChain_bounds 0 _ _ _ ltac:(lia) Hrest) as Hend.
    cbn [mergeFrom]. rewrite u32_small by lia.
    destruct (Z.eqb_spec (Hole.offset cur + Hole.length cur)
                         (Hole.offset next)) as [Htouch|Hapart].
    + rewrite u32_small by lia.
      rewrite (IH _ lo hi); try assumption.
      * unfold holeWords. cbn [fold_right Hole.length]. lia.
      * cbn [holeChain Hole.offset Hole.length]. repeat split; try lia.
        now replace (Hole.offset cur + (Hole.length cur + Hole.length next))
          with (Hole.offset next + Hole.length next) by lia.
    + change (holeWords (cur :: mergeFrom next rest))
        with (Hole.length cur + holeWords (mergeFrom next rest)).
      rewrite (IH next (Hole.offset cur + Hole.length cur) hi); try lia.
      * reflexivity.
      * cbn [holeChain]. repeat split; assumption.
Qed.

Lemma holeWords_takeFromHole holes lo hi h req holes' :
  holeChain 1 lo hi holes -> In h holes ->
  0 < req <= Hole.length h -> 0 <= lo + 1 -> hi < 2 ^ 32 ->
  takeFromHole (Hole.offset h) req holes = Some holes' ->
  holeWords holes' = holeWords holes - req.
Proof.
  intros Hc Hin Hreq Hlo Hhi Htake.
  destruct (takeFromHole_split holes lo hi h req Hc Hin)
    as (pre & post & -> & Htake').
  rewrite Htake in Htake'. injection Htake' as ->.
  destruct (holeChain_In 1 _ _ _ h ltac:(lia) Hc Hin) as (H1 & H2 & H3).
  rewrite !holeWords_app.
  destruct (Z.eqb_spec (Hole.length h) req);
    unfold holeWords; cbn [fold_right Hole.length].
  - lia.
  - rewrite (u32_small (Hole.length h - req)) by lia. lia.
Qed.

Lemma perform_wordsBalance m c :
  wellFormed m -> callInRange m c ->
  wordsBalance m -> wordsBalance (perform c m).
Proof.
  intros Hwf Hc Hbal. unfold wordsBalance in *.
  pose proof (wf_capacity m Hwf) as Hcap. unfold MAX_NUM_WORDS in Hcap.
  pose proof (wf_wordSize m Hwf) as Hws.
  destruct c as [mmap n| |n|a|s]; cbn [perform callInRange] in *.
  - destruct Hc as [[Hzero Hptr] Hn].
    assert (Hdead : forall m0, wellFormed m0 -> memoryStart m0 = nullptr ->
                     holeWords (holeList m0) + blockWords (allocatedList m0)
                     = capacityWords m0 ->
                     holeWords (holeList m0) + blockWords (allocatedList m0)
                     = 0).
    { intros m0 Hwf0 Hnull Hb. rewrite Hb. unfold capacityWords.
      now rewrite (wf_limit m0 Hwf0 Hnull). }
    unfold initialize.
    set (m1 := if memoryStart m =? nullptr then m else shutdown m).
    assert (Hm1 : wellFormed m1 /\ memoryStart m1 = nullptr /\
                  wordSize m1 = wordSize m /\
                  holeWords (holeList m1) + blockWords (allocatedList m1)
                  = capacityWords m1).
    { unfold m1. destruct (Z.eqb_spec (memoryStart m) nullptr) as [E|E].
      - split; [assumption|]. split; [assumption|].
        split; [reflexivity|assumption].
      - split; [now apply shutdown_wellFormed|].
        unfold capacityWords. cbn.
        destruct (Z.eqb_spec (memoryStart m) nullptr); [contradiction|].
        cbn. split; [reflexivity|]. split; reflexivity. }
    destruct Hm1 as (Hwf1 & Hnull1 & Hws1 & Hb1).
    destruct (Z.gtb_spec n MAX_NUM_WORDS); [assumption|].
    unfold MAX_NUM_WORDS in *.
    rewrite u64_small by (rewrite Hws1; nia).
    destruct (Z.eqb_spec (mmap (n * wordSize m1)) MAP_FAILED); cbn [fst].
    + unfold capacityWords. cbn.
      now apply Hdead.
    + assert (Hnpos : 0 < n).
      { destruct (Z.eq_dec n 0) as [->|]; [|lia].
        rewrite Z.mul_0_l in *. contradiction. }
      unfold capacityWords. cbn. rewrite u32_small by lia.
      rewrite Z.div_mul by lia. lia.
  - unfold capacityWords. cbn.
    destruct (Z.eqb_spec (memoryStart m) nullptr) as [E|E]; cbn.
    + now rewrite (wf_limit m Hwf E).
    + reflexivity.
  - destruct (allocate_in_range m n Hwf Hc)
      as [->|(h & holes' & _ & Hin & Hlen & _ & Htake & _ & _ & ->)];
      [assumption|].
    cbn [snd]. unfold capacityWords in *.
    cbn [holeList allocatedList memoryLimit wordSize].
    rewrite blockWords_insertBlock. cbn [Block.length].
    rewrite (holeWords_takeFromHole _ (-1) (memoryLimit m / wordSize m)
               h _ holes' (wf_holes m Hwf) Hin Hlen ltac:(lia) ltac:(lia)
               Htake).
    lia.
  - destruct (free_wellFormed_result m a Hwf)
      as [->|(len & blocks' & Hrem & Hlen & ->)]; [assumption|].
    unfold capacityWords in *.
    cbn [holeList allocatedList memoryLimit wordSize].
    destruct (removeBlock_Some _ _ _ _ Hrem) as (Hin & _ & _).
    destruct (tiles_extent_range m (wordOffsetOf m a, len) (wf_tiles m Hwf))
      as [Hq1 Hq2];
      [apply in_or_app; right; now apply (in_map blockExtent) in Hin
      | cbn; lia |].
    cbn [fst snd] in Hq1, Hq2. unfold capacityWords in Hq2.
    assert (Hins : holeChain 0 0 (memoryLimit m / wordSize m)
                     (insertHole (Hole.mk (wordOffsetOf m a) len)
                                 (holeList m))).
    { apply insertHole_chain; cbn [Hole.offset Hole.length]; try lia.
      - apply holeChain_weaken with (gap := 1) (lo := -1); try lia.
        apply (wf_holes m Hwf).
      - intros h w Hh Hwh Hwb.
        apply (tiles_hole_block_disjoint m h
                 (Block.mk (wordOffsetOf m a) len) w (wf_tiles m Hwf));
          assumption. }
    assert (Hmerge : holeWords (mergeHoles
                       (insertHole (Hole.mk (wordOffsetOf m a) len)
                                   (holeList m)))
                     = holeWords (insertHole (Hole.mk (wordOffsetOf m a) len)
                                             (holeList m))).
    { destruct (insertHole _ (holeList m)) as [|x r]; [reflexivity|].
      cbn [mergeHoles].
      apply (holeWords_mergeFrom r x 0 (memoryLimit m / wordSize m));
        [assumption | lia | lia]. }
    rewrite Hmerge, holeWords_insertHole. cbn [Hole.length].
    rewrite (blockWords_removeBlock _ _ _ _ Hrem) in Hbal. lia.
  - assumption.
Qed.

(** X13. After any sequence of calls in range, the lengths of the holes
    and the lengths of the allocations add up to the capacity of the
    arena in words (0 when no arena is live): no word is lost or counted
    twice by [allocate], [free] or the coalescing. *)
Theorem ledger_words_add_up_to_capacity :
  forall m : MemoryManager,
    reachableInRange m ->
    holeWords (holeList m) + blockWords (allocatedList m) = capacityWords m.
Proof.
  induction 1 as [ws s Hws Hs | m c Hr IH Hc].
  - reflexivity.
  - apply perform_wordsBalance; try assumption.
    now apply reachableInRange_wellFormed.
Qed.

Lemma ledger_words_add_up_to_capacity_witness :
  reachableInRange arena32WithBlock /\
  holeWords (holeList arena32WithBlock)
  + blockWords (allocatedList arena32WithBlock)
  = capacityWords arena32WithBlock.
Proof.
  split; [exact arena32WithBlock_reachable|].
  exact (ledger_words_add_up_to_capacity _ arena32WithBlock_reachable).
Defined.

(* ================================================================= *)
(** * When [allocate] gives memory, and where *)

(** X16. Exhaustion: on a well-formed manager, a request in range whose
    word count no hole reaches returns null and leaves the manager, both
    ledgers included, unchanged. *)
Theorem allocate_exhausted :
  forall (m : MemoryManager) (sizeInBytes : Z),
    wellFormed m -> requestInRange m sizeInBytes ->
    noHoleFits (holeList m)
               ((sizeInBytes + wordSize m - 1) / wordSize m) ->
    allocate sizeInBytes m = (nullptr, m).
Proof.
  intros m n Hwf Hreq Hnone.
  destruct (allocate_in_range m n Hwf Hreq)
    as [E|(h & holes' & _ & Hin & Hlen & _)]; [assumption|].
  specialize (Hnone h Hin). lia.
Qed.

Lemma allocate_exhausted_witness :
  wellFormed arena32WithBlock /\
  requestInRange arena32WithBlock 232 /\
  noHoleFits (holeList arena32WithBlock)
             ((232 + wordSize arena32WithBlock - 1)
              / wordSize arena32WithBlock) /\
  allocate 232 arena32WithBlock = (nullptr, arena32WithBlock).
Proof.
  assert (H1 : requestInRange arena32WithBlock 232)
    by (vm_compute; repeat split; discriminate).
  assert (H2 : noHoleFits (holeList arena32WithBlock)
                 ((232 + wordSize arena32WithBlock - 1)
                  / wordSize arena32WithBlock)).
  { intros h Hin. vm_compute in Hin. destruct Hin as [<-|[]].
    vm_compute. reflexivity. }
  split; [exact arena32WithBlock_wellFormed|].
  split; [exact H1|]. split; [exact H2|].
  exact (allocate_exhausted _ 232 arena32WithBlock_wellFormed H1 H2).
Defined.

(** A built-in strategy answers -1 only when no hole is large enough. *)
Lemma fitLoop_finds better init holes requestedWords h :
  (forall a b c, better a b = true -> better b c = true -> better a c = true) ->
  (forall a b, better a b = true -> better b a = false) ->
  (forall len, 0 <= len < 2 ^ 16 -> better len (snd init) = true) ->
  fitsSnapshot holes -> In h holes -> requestedWords <= Hole.length h ->
  fitLoop better requestedWords (encodeHoles holes) init <> -1.
Proof.
  intros Htrans Hasym Hinit [Hlen Hok] Hin Hfit.
  rewrite fitLoop_encodeHoles by assumption.
  destruct init as [bo bl]. cbn [snd] in Hinit.
  destruct (fold_pickHole better requestedWords Htrans Hasym holes bo bl Hok)
    as [[_ Hnone]|(i & x & Hi & Hr & _)].
  - specialize (Hnone h Hin Hfit).
    rewrite Forall_forall in Hok. destruct (Hok h Hin) as [_ Hl].
    rewrite (Hinit _ Hl) in Hnone. discriminate.
  - rewrite Hr. cbn [fst].
    rewrite Forall_forall in Hok.
    destruct (Hok x (nth_error_In _ _ Hi)) as [Ho _]. lia.
Qed.

Lemma builtin_strategy_finds s holes requestedWords h :
  s = bestFit \/ s = worstFit ->
  fitsSnapshot holes -> In h holes -> requestedWords <= Hole.length h ->
  s requestedWords (encodeHoles holes) <> -1.
Proof.
  intros [->| ->] Hfits Hin Hfit.
  - unfold bestFit. apply fitLoop_finds with h; try assumption.
    + intros a b c. rewrite !Z.ltb_lt. lia.
    + intros a b. rewrite Z.ltb_lt, Z.ltb_ge. lia.
    + intros len Hl. cbn [snd]. apply Z.ltb_lt. unfold MAX_NUM_WORDS. lia.
  - unfold worstFit. apply fitLoop_finds with h; try assumption.
    + intros a b c. rewrite !Z.gtb_ltb, !Z.ltb_lt. lia.
    + intros a b. rewrite !Z.gtb_ltb, Z.ltb_lt, Z.ltb_ge. lia.
    + intros len Hl. cbn [snd]. rewrite Z.gtb_ltb. apply Z.ltb_lt. lia.
Qed.

(** X17. Under best fit or worst fit, on a live well-formed manager, a
    request in range of at least one byte gets memory whenever some hole
    has at least the requested word count: [allocate] does not return
    null. *)
Theorem allocate_succeeds_when_a_hole_fits :
  forall (m : MemoryManager) (sizeInBytes : Z) (h : Hole.t),
    wellFormed m -> live m ->
    allocator m = bestFit \/ allocator m = worstFit ->
    requestInRange m sizeInBytes -> sizeInBytes <> 0 ->
    In h (holeList m) ->
    (sizeInBytes + wordSize m - 1) / wordSize m <= Hole.length h ->
    fst (allocate sizeInBytes m) <> nullptr.
Proof.
  intros m n h Hwf Hlive Hs Hreq Hnz Hin Hfit.
  pose proof (wf_wordSize m Hwf) as Hws.
  pose proof (wf_capacity m Hwf) as Hcap.
  pose proof (wf_start m Hwf) as Hstart.
  pose proof (holeChain_fitsSnapshot _ _ (proj2 Hcap) (wf_holes m Hwf))
    as Hfits.
  destruct (wordsFor_in_range m n ltac:(lia) Hreq) as (Hwords & Hs32 & _ & _).
  unfold allocate, live, nullptr in *.
  destruct (Z.eqb_spec (memoryStart m) 0); [contradiction|].
  destruct (Z.eqb_spec n 0); [contradiction|]. cbn [orb].
  unfold getList. destruct (holeList m) as [|h0 rest] eqn:Hl;
    [destruct Hin|]. rewrite <- Hl in *.
  rewrite Hs32, Hwords.
  set (req := (n + wordSize m - 1) / wordSize m) in *.
  pose proof (builtin_strategy_finds (allocator m) (holeList m) req h
                Hs Hfits Hin Hfit) as Hfound.
  destruct (wf_strategy m Hwf (holeList m) req Hfits)
    as [Hno|(x & Hx & Ho & _)]; [contradiction|].
  destruct (Z.eqb_spec (allocator m req (encodeHoles (holeList m))) (-1));
    [contradiction|].
  rewrite Ho.
  destruct (fitsSnapshot_In _ x Hfits Hx) as [Hxo _].
  destruct Hfits as [_ Hok]. rewrite Forall_forall in Hok.
  destruct (Hok x Hx) as [Hxr _].
  rewrite (u32_small (Hole.offset x)) by lia.
  destruct (takeFromHole (Hole.offset x) req (holeList m)) as [holes'|] eqn:Ht.
  - cbn [fst]. pose proof (u32_range (Hole.offset x * wordSize m)). lia.
  - exfalso. rewrite takeFromHole_None in Ht. now apply (Ht x Hx).
Qed.

Lemma allocate_succeeds_when_a_hole_fits_witness :
  wellFormed arena32WithBlock /\ live arena32WithBlock /\
  (allocator arena32WithBlock = bestFit \/
   allocator arena32WithBlock = worstFit) /\
  requestInRange arena32WithBlock 224 /\ 224 <> 0 /\
  In (Hole.mk 4 28) (holeList arena32WithBlock) /\
  (224 + wordSize arena32WithBlock - 1) / wordSize arena32WithBlock
    <= Hole.length (Hole.mk 4 28) /\
  fst (allocate 224 arena32WithBlock) <> nullptr.
Proof.
  assert (H3 : allocator arena32WithBlock = bestFit \/
               allocator arena32WithBlock = worstFit)
    by (left; reflexivity).
  assert (H4 : requestInRange arena32WithBlock 224)
    by (vm_compute; repeat split; discriminate).
  assert (H5 : 224 <> 0) by discriminate.
  assert (H6 : In (Hole.mk 4 28) (holeList arena32WithBlock))
    by (left; reflexivity).
  assert (H7 : (224 + wordSize arena32WithBlock - 1)
               / wordSize arena32WithBlock
               <= Hole.length (Hole.mk 4 28)) by (vm_compute; discriminate).
  split; [exact arena32WithBlock_wellFormed|].
  split; [exact arena32WithBlock_live|].
  split; [exact H3|]. split; [exact H4|]. split; [exact H5|].
  split; [exact H6|]. split; [exact H7|].
  exact (allocate_succeeds_when_a_hole_fits _ 224 _
           arena32WithBlock_wellFormed arena32WithBlock_live H3 H4 H5 H6 H7).
Defined.

(** X18. On a well-formed manager whose arena has at most 2^32 bytes, the
    address [allocate] returns for a request in range, when it is not
    null, is the arena base plus a whole number of words, and the
    [sizeInBytes] bytes from it lie inside the arena. *)
Theorem allocate_address_inside_arena :
  forall (m : MemoryManager) (sizeInBytes : Z),
    wellFormed m -> requestInRange m sizeInBytes ->
    memoryLimit m <= 2 ^ 32 ->
    fst (allocate sizeInBytes m) <> nullptr ->
    memoryStart m <= fst (allocate sizeInBytes m) /\
    fst (allocate sizeInBytes m) + sizeInBytes
      <= memoryStart m + memoryLimit m /\
    (fst (allocate sizeInBytes m) - memoryStart m) mod wordSize m = 0.
Proof.
  intros m n Hwf Hreq Hlim Hnn.
  pose proof (wf_wordSize m Hwf) as Hws.
  destruct (allocate_in_range m n Hwf Hreq)
    as [E|(h & holes' & Hlive & Hin & Hlen & _ & _ & _ & _ & E)];
    rewrite E in *; cbn [fst] in *; [contradiction|].
  destruct (hole_byte_offset_fits m h Hwf Hlim Hin) as [Hbyte Hoff].
  rewrite u32_small by assumption.
  destruct (holeChain_In 1 _ _ _ h ltac:(lia) (wf_holes m Hwf) Hin)
    as (H1 & H2 & H3).
  set (req := (n + wordSize m - 1) / wordSize m) in *.
  assert (Hn : n <= req * wordSize m).
  { pose proof (Z.div_mod (n + wordSize m - 1) (wordSize m) ltac:(lia)).
    pose proof (Z.mod_pos_bound (n + wordSize m - 1) (wordSize m)
                  ltac:(lia)).
    fold req in H. nia. }
  unfold capacityWords in H3.
  pose proof (Z.mul_div_le (memoryLimit m) (wordSize m) ltac:(lia)).
  split; [lia|]. split; [nia|].
  replace (memoryStart m + Hole.offset h * wordSize m - memoryStart m)
    with (Hole.offset h * wordSize m) by lia.
  apply Z.mod_mul. lia.
Qed.

Lemma allocate_address_inside_arena_witness :
  wellFormed arena32WithBlock /\
  requestInRange arena32WithBlock 224 /\
  memoryLimit arena32WithBlock <= 2 ^ 32 /\
  fst (allocate 224 arena32WithBlock) <> nullptr /\
  (memoryStart arena32WithBlock <= fst (allocate 224 arena32WithBlock) /\
   fst (allocate 224 arena32WithBlock) + 224
     <= memoryStart arena32WithBlock + memoryLimit arena32WithBlock /\
   (fst (allocate 224 arena32WithBlock) - memoryStart arena32WithBlock)
     mod wordSize arena32WithBlock = 0).
Proof.
  assert (H2 : requestInRange arena32WithBlock 224)
    by (vm_compute; repeat split; discriminate).
  assert (H3 : memoryLimit arena32WithBlock <= 2 ^ 32)
    by (vm_compute; discriminate).
  assert (H4 : fst (allocate 224 arena32WithBlock) <> nullptr)
    by (vm_compute; discriminate).
  split; [exact arena32WithBlock_wellFormed|].
  split; [exact H2|]. split; [exact H3|]. split; [exact H4|].
  exact (allocate_address_inside_arena _ 224
           arena32WithBlock_wellFormed H2 H3 H4).
Defined.

(* ================================================================= *)
(** * One allocation per offset, and the double free *)

Lemma offsets_NoDup l :
  (forall w, (coverCount w (map blockExtent l) <= 1)%nat) ->
  Forall (fun b => 0 < Block.length b) l ->
  NoDup (map Block.offset l).
Proof.
  induction l as [|b rest IH]; intros Hcov Hpos; cbn [map].
  - constructor.
  - inversion Hpos as [|? ? Hb Hrest]; subst. constructor.
    + intros Hin. apply in_map_iff in Hin. destruct Hin as (b' & Heq & Hin).
      specialize (Hcov (Block.offset b)). cbn [map coverCount] in Hcov.
      assert (Hb0 : inExtent (Block.offset b) (blockExtent b) = true)
        by (apply inExtent_iff; cbn; lia).
      assert (Hb1 : inExtent (Block.offset b) (blockExtent b') = true).
      { rewrite Forall_forall in Hrest. specialize (Hrest b' Hin).
        apply inExtent_iff. cbn. lia. }
      pose proof (coverCount_In _ _ _ (in_map blockExtent _ _ Hin) Hb1).
      unfold covers in Hcov. rewrite Hb0 in Hcov. lia.
    + apply IH; [|assumption].
      intros w. specialize (Hcov w). cbn [map coverCount] in Hcov. lia.
Qed.

Lemma wellFormed_offsets_NoDup m :
  wellFormed m -> NoDup (map Block.offset (allocatedList m)).
Proof.
  intros Hwf. apply offsets_NoDup; [|apply (wf_blocks m Hwf)].
  intros w. pose proof (wf_tiles m Hwf w) as Ht. unfold extents in Ht.
  rewrite coverCount_app in Ht.
  destruct ((0 <=? w) && (w <? capacityWords m)); lia.
Qed.

(** X19. On a well-formed manager no two allocations of the Allocation
    Ledger start at the same word offset: an offset names at most one
    live allocation. *)
Theorem allocations_have_distinct_offsets :
  forall m : MemoryManager,
    wellFormed m -> NoDup (map Block.offset (allocatedList m)).
Proof. exact wellFormed_offsets_NoDup. Qed.


Lemma removeBlock_None q l :
  (forall b, In b l -> Block.offset b <> q) -> removeBlock q l = None.
Proof.
  induction l as [|b rest IH]; intros H; cbn [removeBlock]; [reflexivity|].
  destruct (Z.eqb_spec (Block.offset b) q) as [E|_].
  - now destruct (H b (or_introl eq_refl)).
  - rewrite IH; [reflexivity|]. intros x Hx. apply H. now right.
Qed.

Lemma removeBlock_twice q l len l' :
  NoDup (map Block.offset l) ->
  removeBlock q l = Some (len, l') -> removeBlock q l' = None.
Proof.
  revert l'. induction l as [|b rest IH]; intros l' Hnd; cbn [removeBlock].
  - discriminate.
  - cbn [map] in Hnd. inversion Hnd as [|? ? Hnotin Hnd']; subst.
    destruct (Z.eqb_spec (Block.offset b) q) as [E|E].
    + intros [= <- <-]. apply removeBlock_None.
      intros x Hx Hq. apply Hnotin. rewrite E, <- Hq. now apply in_map.
    + destruct (removeBlock q rest) as [[len0 rest']|] eqn:Hr;
        [|discriminate].
      intros [= <- <-]. cbn [removeBlock].
      destruct (Z.eqb_spec (Block.offset b) q); [contradiction|].
      now rewrite (IH rest' Hnd' eq_refl).
Qed.

(** X21. On a well-formed manager a second [free] of the same address
    right after the first changes nothing, whether or not the first one
    freed an allocation. *)
Theorem double_free_changes_nothing :
  forall (m : MemoryManager) (address : Z),
    wellFormed m ->
    free address (free address m) = free address m.
Proof.
  intros m a Hwf.
  destruct (free_wellFormed_result m a Hwf)
    as [E|(len & blocks' & Hrem & Hlen & E)].
  - now rewrite !E.
  - rewrite E. unfold free at 1.
    cbn [memoryStart allocatedList holeList wordSize memoryLimit allocator].
    destruct ((memoryStart m =? nullptr) || (a =? nullptr)); [reflexivity|].
    unfold wordOffsetOf at 1. cbn [memoryStart wordSize].
    fold (wordOffsetOf m a).
    now rewrite (removeBlock_twice _ _ _ _ (wellFormed_offsets_NoDup m Hwf)
                   Hrem).
Qed.

Lemma double_free_changes_nothing_witness :
  wellFormed arena32WithBlock /\
  free 4096 (free 4096 arena32WithBlock) = free 4096 arena32WithBlock.
Proof.
  split; [exact arena32WithBlock_wellFormed|].
  exact (double_free_changes_nothing _ 4096 arena32WithBlock_wellFormed).
Defined.

(* ================================================================= *)
(** * Coalescing *)

(** X22. On a Hole Ledger in offset order whose holes have positive
    lengths and do not overlap (they may touch), inside a 32-bit range,
    [mergeHoles] gives a ledger in which no two holes are adjacent, with
    the same total number of words, and a second [mergeHoles] changes
    nothing. *)
Theorem mergeHoles_coalesces_once :
  forall (holes : list Hole.t) (lo hi : Z),
    holeChain 0 lo hi holes -> 0 <= lo -> hi < 2 ^ 32 ->
    noAdjacentHoles (mergeHoles holes) /\
    holeWords (mergeHoles holes) = holeWords holes /\
    mergeHoles (mergeHoles holes) = mergeHoles holes.
Proof.
  intros holes lo hi Hc Hlo Hhi.
  destruct (mergeHoles_chain holes lo hi Hc Hlo Hhi) as [Hm _].
  split; [now apply holeChain_noAdjacentHoles with (lo - 1) hi|].
  split.
  - destruct holes as [|h rest]; [reflexivity|].
    now apply holeWords_mergeFrom with lo hi.
  - destruct (mergeHoles holes) as [|x r] eqn:E; [reflexivity|].
    cbn [mergeHoles].
    apply mergeFrom_apart with (lo := lo - 1) (hi := hi);
      [assumption | lia | assumption].
Qed.

Lemma mergeHoles_coalesces_once_witness :
  holeChain 0 0 10 touchingHoles /\ 0 <= 0 /\ 10 < 2 ^ 32 /\
  (noAdjacentHoles (mergeHoles touchingHoles) /\
   holeWords (mergeHoles touchingHoles) = holeWords touchingHoles /\
   mergeHoles (mergeHoles touchingHoles) = mergeHoles touchingHoles).
Proof.
  assert (H1 : holeChain 0 0 10 touchingHoles)
    by (cbn; repeat split; discriminate).
  assert (H2 : 0 <= 0) by discriminate.
  assert (H3 : 10 < 2 ^ 32) by reflexivity.
  split; [exact H1|]. split; [exact H2|]. split; [exact H3|].
  exact (mergeHoles_coalesces_once touchingHoles 0 10 H1 H2 H3).
Defined.

(* ================================================================= *)
(** * Instances of the theorems on calls in range *)

Lemma tiling_when_requests_in_range_witness :
  reachableInRange arena32WithBlock /\ tiles arena32WithBlock.
Proof.
  split; [exact arena32WithBlock_reachable|].
  exact (tiling_when_requests_in_range _ arena32WithBlock_reachable).
Defined.


Lemma allocate_free_round_trip_in_range_witness :
  wellFormed arena32WithBlock /\
  requestInRange arena32WithBlock 64 /\
  memoryLimit arena32WithBlock <= 2 ^ 32 /\
  fst (allocate 64 arena32WithBlock) <> nullptr /\
  holeList (free (fst (allocate 64 arena32WithBlock))
                 (snd (allocate 64 arena32WithBlock)))
  = holeList arena32WithBlock.
Proof.
  assert (H2 : requestInRange arena32WithBlock 64)
    by (vm_compute; repeat split; discriminate).
  assert (H3 : memoryLimit arena32WithBlock <= 2 ^ 32)
    by (vm_compute; discriminate).
  assert (H4 : fst (allocate 64 arena32WithBlock) <> nullptr)
    by (vm_compute; discriminate).
  split; [exact arena32WithBlock_wellFormed|].
  split; [exact H2|]. split; [exact H3|]. split; [exact H4|].
  exact (allocate_free_round_trip_in_range _ 64
           arena32WithBlock_wellFormed H2 H3 H4).
Defined.

Lemma allocate_low_end_in_range_witness :
  wellFormed arena32WithBlock /\
  requestInRange arena32WithBlock 60 /\
  memoryLimit arena32WithBlock <= 2 ^ 32 /\
  fst (allocate 60 arena32WithBlock) <> nullptr /\
  (let req := (60 + wordSize arena32WithBlock - 1)
              / wordSize arena32WithBlock in
   (req - 1) * wordSize arena32WithBlock < 60
     <= req * wordSize arena32WithBlock /\
   exists h pre post,
     holeList arena32WithBlock = pre ++ h :: post /\
     allocator arena32WithBlock req
       (encodeHoles (holeList arena32WithBlock)) = Hole.offset h /\
     req <= Hole.length h /\
     fst (allocate 60 arena32WithBlock)
       = memoryStart arena32WithBlock
         + Hole.offset h * wordSize arena32WithBlock /\
     holeList (snd (allocate 60 arena32WithBlock))
       = pre ++ (if Hole.length h =? req then post
                 else Hole.mk (Hole.offset h + req)
                              (Hole.length h - req) :: post) /\
     allocatedList (snd (allocate 60 arena32WithBlock))
       = insertBlock (Block.mk (Hole.offset h) req)
                     (allocatedList arena32WithBlock)).
Proof.
  assert (H2 : requestInRange arena32WithBlock 60)
    by (vm_compute; repeat split; discriminate).
  assert (H3 : memoryLimit arena32WithBlock <= 2 ^ 32)
    by (vm_compute; discriminate).
  assert (H4 : fst (allocate 60 arena32WithBlock) <> nullptr)
    by (vm_compute; discriminate).
  split; [exact arena32WithBlock_wellFormed|].
  split; [exact H2|]. split; [exact H3|]. split; [exact H4|].
  exact (allocate_low_end_in_range _ 60
           arena32WithBlock_wellFormed H2 H3 H4).
Defined.

Lemma initialize_throw_not_live_witness :
  snd (initialize (posix_mmap 4096) 65536 arena32WithBlock) <> returned /\
  memoryStart (fst (initialize (posix_mmap 4096) 65536 arena32WithBlock))
  = nullptr.
Proof.
  assert (H : snd (initialize (posix_mmap 4096) 65536 arena32WithBlock)
              <> returned) by discriminate.
  split; [exact H|].
  exact (initialize_throw_not_live (posix_mmap 4096) 65536
           arena32WithBlock H).
Defined.

Lemma initialize_returns_witness :
  0 <= 16 <= MAX_NUM_WORDS /\
  posix_mmap 8192 (u64 (16 * wordSize arena32WithBlock)) <> MAP_FAILED /\
  (snd (initialize (posix_mmap 8192) 16 arena32WithBlock) = returned /\
   holeList (fst (initialize (posix_mmap 8192) 16 arena32WithBlock))
     = [Hole.mk 0 16] /\
   allocatedList (fst (initialize (posix_mmap 8192) 16 arena32WithBlock))
     = [] /\
   memoryStart (fst (initialize (posix_mmap 8192) 16 arena32WithBlock))
     = posix_mmap 8192 (u64 (16 * wordSize arena32WithBlock))).
Proof.
  assert (H1 : 0 <= 16 <= MAX_NUM_WORDS) by (split; discriminate).
  assert (H2 : posix_mmap 8192 (u64 (16 * wordSize arena32WithBlock))
               <> MAP_FAILED) by discriminate.
  split; [exact H1|]. split; [exact H2|].
  exact (initialize_returns (posix_mmap 8192) 16 arena32WithBlock H1 H2).
Defined.

Lemma dumpMemoryMap_complete_witness :
  fs_open completeFileSystem "memory_map.txt" <> -1 /\
  writesComplete completeFileSystem /\
  fs_close completeFileSystem <> -1 /\
  dumpMemoryMap completeFileSystem "memory_map.txt" (Some "old"%string)
                twoHoles
  = (0, Some (renderHoles (holeList twoHoles))).
Proof.
  assert (H1 : fs_open completeFileSystem "memory_map.txt" <> -1)
    by discriminate.
  assert (H2 : writesComplete completeFileSystem)
    by (intros k data; reflexivity).
  assert (H3 : fs_close completeFileSystem <> -1) by discriminate.
  split; [exact H1|]. split; [exact H2|]. split; [exact H3|].
  exact (dumpMemoryMap_complete completeFileSystem "memory_map.txt"
           (Some "old"%string) twoHoles H1 H2 H3).
Defined.

(* ================================================================= *)
(** * Two more managers of the concrete runs *)

Lemma fragmentedArena_reachable : reachableInRange fragmentedArena.
Proof.
  unfold fragmentedArena.
  apply reach_call; [|exact I].
  repeat (apply reach_call; [|vm_compute; repeat split; discriminate]).
  exact demoArena_reachable.
Qed.

Lemma fragmentedArena_wellFormed : wellFormed fragmentedArena.
Proof. apply reachableInRange_wellFormed, fragmentedArena_reachable. Qed.

(** The three allocations are at 4096, 4128 and 4160; the release of the
    second leaves two holes and two allocations. *)
Lemma fragmentedArena_ledgers :
  holeList fragmentedArena = [Hole.mk 4 4; Hole.mk 12 20] /\
  allocatedList fragmentedArena = [Block.mk 0 4; Block.mk 8 4] /\
  memoryStart fragmentedArena = 4096 /\
  wordSize fragmentedArena = 8.
Proof. evaluate. Qed.

(** The request of 2^31 bytes has put an allocation of 2^31 words before
    the one at offset 2, and has left a wrapped hole before the hole at
    offset 4. *)
Lemma arenaAfter2GiBRequest_ledgers :
  allocatedList arenaAfter2GiBRequest = [Block.mk 0 (2 ^ 31); Block.mk 2 2] /\
  holeList arenaAfter2GiBRequest
    = [Hole.mk (2 ^ 31) (2 ^ 31 + 2); Hole.mk 4 6] /\
  memoryStart arenaAfter2GiBRequest = 4096 /\
  wordSize arenaAfter2GiBRequest = 1.
Proof. evaluate. Qed.

(** The Hole Ledger of [fragmentedArena] holds the two holes (4,4) and
    (12,20), with the allocation (8,4) between them. *)
Lemma no_adjacent_holes_when_requests_in_range_witness :
  reachableInRange fragmentedArena /\
  noAdjacentHoles (holeList fragmentedArena).
Proof.
  split; [exact fragmentedArena_reachable|].
  exact (no_adjacent_holes_when_requests_in_range _
           fragmentedArena_reachable).
Defined.

(** The Allocation Ledger of [fragmentedArena] holds the two allocations
    (0,4) and (8,4). *)
Lemma allocations_have_distinct_offsets_witness :
  wellFormed fragmentedArena /\
  NoDup (map Block.offset (allocatedList fragmentedArena)).
Proof.
  split; [exact fragmentedArena_wellFormed|].
  exact (allocations_have_distinct_offsets _ fragmentedArena_wellFormed).
Defined.

(* ================================================================= *)
(** * When [allocate] returns null, on a well-formed manager *)




(** The three cases at work: a request of 0 bytes, a manager shut down,
    the full arena with its empty Hole Ledger, and a request that no hole
    of [fragmentedArena] reaches; a request of 20 words is served. *)
Example allocate_null_instances :
  fst (allocate 0 fragmentedArena) = nullptr /\
  fst (allocate 8 (shutdown fragmentedArena)) = nullptr /\
  holeList fullArena = [] /\
  fst (allocate 1 fullArena) = nullptr /\
  wordsFor fragmentedArena 168 = 21 /\
  allocator fragmentedArena 21 (encodeHoles (holeList fragmentedArena)) = -1 /\
  fst (allocate 168 fragmentedArena) = nullptr /\
  fst (allocate 160 fragmentedArena) = 4096 + 12 * 8.
Proof. evaluate. Qed.

(* ================================================================= *)
(** * What [free] does with an address *)

Lemma freeWord_coverCount m w :
  freeWord m w <-> (1 <= coverCount w (map holeExtent (holeList m)))%nat.
Proof.
  rewrite coverCount_positive. unfold freeWord. split.
  - intros (h & Hin & Hh). exists (holeExtent h).
    split; [now apply in_map|]. now apply inExtent_iff.
  - intros (e & Hin & He). apply in_map_iff in Hin.
    destruct Hin as (h & <- & Hin). exists h. split; [assumption|].
    now apply inExtent_iff in He.
Qed.

Lemma wellFormed_ledgerInvariants m : wellFormed m -> ledgerInvariants m.
Proof.
  intros Hwf. split; [apply (wf_capacity m Hwf)|].
  split; [apply (wf_holes m Hwf) | apply (wf_tiles m Hwf)].
Qed.

(** The Hole Ledger after [free] has found an allocation of positive
    length, when the ledgers' invariants held before the call. *)
Lemma free_returns_extent m address len blocks' :
  ledgerInvariants m ->
  memoryStart m <> nullptr -> address <> nullptr ->
  removeBlock (wordOffsetOf m address) (allocatedList m)
    = Some (len, blocks') ->
  0 < len ->
  returnedAndCoalesced m (free address m) (wordOffsetOf m address, len).
Proof.
  intros (Hcap & Hholes & Htiles) Hlive Ha Hrem Hlen.
  set (q := wordOffsetOf m address) in *.
  assert (Hfree : holeList (free address m)
                  = mergeHoles (insertHole (Hole.mk q len) (holeList m))).
  { unfold free.
    destruct (Z.eqb_spec (memoryStart m) nullptr); [contradiction|].
    destruct (Z.eqb_spec address nullptr); [contradiction|].
    cbn [orb]. fold q. rewrite Hrem.
    destruct (Z.eqb_spec len 0); [lia|]. reflexivity. }
  destruct (removeBlock_Some _ _ _ _ Hrem) as (Hin & _ & _).
  destruct (tiles_extent_range m (q, len) Htiles) as [Hq1 Hq2].
  { unfold extents. apply in_or_app. right.
    now apply (in_map blockExtent) in Hin. }
  { cbn. lia. }
  cbn [fst snd] in Hq1, Hq2. unfold MAX_NUM_WORDS in Hcap.
  assert (Hins : holeChain 0 0 (capacityWords m)
                   (insertHole (Hole.mk q len) (holeList m))).
  { apply insertHole_chain; cbn [Hole.offset Hole.length]; try lia.
    - apply holeChain_weaken with (gap := 1) (lo := -1); try lia.
      assumption.
    - intros h w Hh Hwh Hwb.
      apply (tiles_hole_block_disjoint m h (Block.mk q len) w); assumption. }
  destruct (mergeHoles_chain _ _ _ Hins ltac:(lia) ltac:(lia))
    as [Hmerged Hmcov].
  unfold returnedAndCoalesced. rewrite Hfree. cbn [fst snd].
  split; [|split; [|split]].
  - intros w. rewrite !freeWord_coverCount, Hfree, Hmcov.
    rewrite coverCount_insertHole. cbn [map coverCount].
    unfold holeExtent at 1. cbn [Hole.offset Hole.length].
    unfold covers. destruct (inExtent w (q, len)) eqn:E.
    + apply inExtent_iff in E. cbn [fst snd] in E. split; [|lia].
      intros _. now right.
    + assert (Hout : ~ (q <= w < q + len)).
      { intros Hw. assert (inExtent w (q, len) = true) as E'
          by (apply inExtent_iff; exact Hw). congruence. }
      split; [intros H; left; lia | intros [H|H]; [lia | contradiction]].
  - now apply holeChain_StronglySorted with (0 - 1) (capacityWords m).
  - apply Forall_forall. intros h Hh.
    now destruct (holeChain_In 1 _ _ _ h ltac:(lia) Hmerged Hh) as (_ & H & _).
  - now apply holeChain_noAdjacentHoles with (0 - 1) (capacityWords m).
Qed.

(** The ledgers after the request of 2^32 bytes keep their invariants:
    the allocation of 0 words covers no word. *)
Lemma arenaAfterWrappedRequest_ledgerInvariants :
  ledgerInvariants arenaAfterWrappedRequest.
Proof.
  assert (Hc : capacityWords arenaAfterWrappedRequest = 10)
    by (vm_compute; reflexivity).
  assert (Hh : holeList arenaAfterWrappedRequest = [Hole.mk 0 10])
    by (vm_compute; reflexivity).
  assert (He : extents arenaAfterWrappedRequest = [(0, 10); (0, 0)])
    by (vm_compute; reflexivity).
  unfold ledgerInvariants, tiles. rewrite Hc, Hh, He.
  split; [discriminate|]. split.
  - cbn. lia.
  - intros w. cbn [coverCount]. unfold covers, inExtent. cbn [fst snd].
    destruct (Z.leb_spec 0 w), (Z.ltb_spec w (0 + 10)),
      (Z.ltb_spec w (0 + 0)), (Z.ltb_spec w 10); cbn; lia.
Qed.

(** C10 (the claim as stated fails), on three inputs.
    With one 4-word allocation at offset 0 of a 1-byte-word arena, the
    address 2^32 bytes above the base has word quotient 2^32, the offset
    of no allocation, and yet [free] removes the allocation at offset 0.
    Where the ledger holds an allocation of 0 words at the quotient, in
    ledgers that keep their invariants, [free] leaves a hole of 0 words
    in the Hole Ledger, at the offset of the hole after it.
    And in [arenaAfter2GiBRequest], whose ledgers do not tile the arena,
    [free] of the address 4098 that [allocate] returned for the 2-word
    allocation at offset 2 leaves the holes (2,2) and (4,6), which are
    adjacent. *)
Lemma free_outside_stated_behaviour :
  (wordQuotient arenaWithBlock (4096 + 2 ^ 32) = 2 ^ 32 /\
   blockAt (2 ^ 32) (allocatedList arenaWithBlock) = None /\
   allocatedList arenaWithBlock = [Block.mk 0 4] /\
   allocatedList (free (4096 + 2 ^ 32) arenaWithBlock) = [] /\
   ~ freesByQuotient arenaWithBlock (4096 + 2 ^ 32)) /\
  (blockAt (wordQuotient arenaAfterWrappedRequest 4096)
           (allocatedList arenaAfterWrappedRequest) = Some (Block.mk 0 0) /\
   holeList (free 4096 arenaAfterWrappedRequest)
     = [Hole.mk 0 0; Hole.mk 0 10] /\
   ledgerInvariants arenaAfterWrappedRequest /\
   ~ freesByQuotient arenaAfterWrappedRequest 4096) /\
  (blockAt (wordQuotient arenaAfter2GiBRequest 4098)
           (allocatedList arenaAfter2GiBRequest) = Some (Block.mk 2 2) /\
   holeList (free 4098 arenaAfter2GiBRequest)
     = [Hole.mk 2 2; Hole.mk (2 ^ 31) (2 ^ 31 + 2); Hole.mk 4 6] /\
   ~ ledgerInvariants arenaAfter2GiBRequest /\
   ~ freesByQuotient arenaAfter2GiBRequest 4098).
Proof.
  assert (B2 : blockAt (wordQuotient arenaAfterWrappedRequest 4096)
                 (allocatedList arenaAfterWrappedRequest)
               = Some (Block.mk 0 0)) by (vm_compute; reflexivity).
  assert (H2 : holeList (free 4096 arenaAfterWrappedRequest)
               = [Hole.mk 0 0; Hole.mk 0 10]) by (vm_compute; reflexivity).
  assert (B3 : blockAt (wordQuotient arenaAfter2GiBRequest 4098)
                 (allocatedList arenaAfter2GiBRequest)
               = Some (Block.mk 2 2)) by (vm_compute; reflexivity).
  assert (H3 : holeList (free 4098 arenaAfter2GiBRequest)
               = [Hole.mk 2 2; Hole.mk (2 ^ 31) (2 ^ 31 + 2); Hole.mk 4 6])
    by (vm_compute; reflexivity).
  split; [|split].
  - evaluate. intros H. vm_compute in H. discriminate H.
  - split; [exact B2|]. split; [exact H2|].
    split; [exact arenaAfterWrappedRequest_ledgerInvariants|].
    unfold freesByQuotient. rewrite B2.
    intros (_ & _ & _ & Hpos & _). rewrite H2 in Hpos.
    inversion Hpos as [|? ? Hlen _]. cbn in Hlen. lia.
  - split; [exact B3|]. split; [exact H3|]. split.
    + intros (_ & _ & Htiles). specialize (Htiles 4).
      vm_compute in Htiles. discriminate Htiles.
    + unfold freesByQuotient. rewrite B3.
      intros (_ & _ & _ & _ & Hno). rewrite H3 in Hno.
      specialize (Hno (Hole.mk 2 2) (Hole.mk 4 6) (or_introl eq_refl)
                      (or_intror (or_intror (or_introl eq_refl)))).
      cbn [Hole.offset Hole.length] in Hno. lia.
Qed.

(** C10 (amended). For a live arena with a word size from 1 to 2^32 - 1
    and a non-null address at or above the arena base whose word quotient
    [floor((address - base) / wordSize)] is below 2^32, [free] matches by
    that quotient: when it is the offset of an allocation, the first such
    allocation is removed whole, also when the address is not the one
    [allocate] returned; when it is the offset of no allocation, the
    manager is unchanged. When moreover the ledgers' invariants hold
    before the call and the matched allocation has a positive length, its
    extent is returned to the Hole Ledger and coalesced: the words in
    holes afterwards are the words in holes before and the words of the
    extent, and the holes are in strictly increasing offset order, of
    positive length, no two of them adjacent. *)
Theorem free_by_word_quotient :
  forall (m : MemoryManager) (address : Z),
    live m ->
    address <> nullptr ->
    0 < wordSize m < 2 ^ 32 ->
    memoryStart m <= address ->
    wordQuotient m address < 2 ^ 32 ->
    matchesByQuotient m address /\
    (ledgerInvariants m -> matchedExtentPositive m address ->
     freesByQuotient m address).
Proof.
  intros m a Hlive Ha Hws Hbase Hq.
  pose proof (wordOffsetOf_wordQuotient m a Hws Hbase Hq) as Hoff.
  assert (Hmatch : matchesByQuotient m a).
  { unfold matchesByQuotient, free, live in *.
    destruct (Z.eqb_spec (memoryStart m) nullptr) as [|_]; [contradiction|].
    destruct (Z.eqb_spec a nullptr) as [|_]; [contradiction|].
    cbn [orb]. rewrite Hoff, removeBlock_blockAt.
    now destruct (blockAt (wordQuotient m a) (allocatedList m)). }
  split; [exact Hmatch|].
  intros Hinv Hpos.
  unfold freesByQuotient, matchesByQuotient, matchedExtentPositive in *.
  destruct (blockAt (wordQuotient m a) (allocatedList m)) as [b|] eqn:Hb;
    [|exact Hmatch].
  split; [exact Hmatch|].
  specialize (Hpos b eq_refl).
  assert (Hrem : removeBlock (wordOffsetOf m a) (allocatedList m)
                 = Some (Block.length b,
                         withoutBlockAt (wordQuotient m a) (allocatedList m)))
    by (now rewrite Hoff, removeBlock_blockAt, Hb).
  pose proof (free_returns_extent m a _ _ Hinv Hlive Ha Hrem Hpos) as Hret.
  apply find_some in Hb. destruct Hb as [_ Hbq].
  apply Z.eqb_eq in Hbq.
  unfold blockExtent. now rewrite Hbq, <- Hoff.
Qed.

(** The address 4163 lies inside the first word of the allocation at
    offset 8 of [fragmentedArena], which [allocate] returned as 4160; the
    freed extent touches the hole (4,4) below it and the hole (12,20)
    above it. *)
Lemma free_by_word_quotient_witness :
  live fragmentedArena /\
  4163 <> nullptr /\
  0 < wordSize fragmentedArena < 2 ^ 32 /\
  memoryStart fragmentedArena <= 4163 /\
  wordQuotient fragmentedArena 4163 < 2 ^ 32 /\
  ledgerInvariants fragmentedArena /\
  matchedExtentPositive fragmentedArena 4163 /\
  matchesByQuotient fragmentedArena 4163 /\
  freesByQuotient fragmentedArena 4163.
Proof.
  assert (H1 : live fragmentedArena) by (vm_compute; discriminate).
  assert (H2 : 4163 <> nullptr) by discriminate.
  assert (H3 : 0 < wordSize fragmentedArena < 2 ^ 32)
    by (vm_compute; split; reflexivity).
  assert (H4 : memoryStart fragmentedArena <= 4163)
    by (vm_compute; discriminate).
  assert (H5 : wordQuotient fragmentedArena 4163 < 2 ^ 32)
    by (vm_compute; reflexivity).
  assert (H6 : ledgerInvariants fragmentedArena)
    by exact (wellFormed_ledgerInvariants _ fragmentedArena_wellFormed).
  assert (H7 : matchedExtentPositive fragmentedArena 4163).
  { intros b Hb. vm_compute in Hb. injection Hb as <-. reflexivity. }
  repeat (split; [assumption|]).
  exact (conj (proj1 (free_by_word_quotient fragmentedArena 4163
                        H1 H2 H3 H4 H5))
              (proj2 (free_by_word_quotient fragmentedArena 4163
                        H1 H2 H3 H4 H5) H6 H7)).
Defined.

(** The same call, evaluated: the allocation at offset 8 is gone and the
    three extents have become the one hole (4,28). *)
Example free_inside_first_word :
  fst (allocate 32 (perform (Allocate 32) (perform (Allocate 32) demoArena)))
    = 4160 /\
  wordQuotient fragmentedArena 4163 = 8 /\
  allocatedList (free 4163 fragmentedArena) = [Block.mk 0 4] /\
  holeList (free 4163 fragmentedArena) = [Hole.mk 4 28].
Proof. evaluate. Qed.
